(** * paper_summarizer: section detection and TF-IDF extractive summaries

    A shallow embedding of [paper_summarizer.py] (title estimation, sentence
    splitting, section detection, tokenizer, TF, IDF, sentence scoring,
    section summaries, keywords and the analysis driver) together with the
    properties its specification states about them.

    Text model.  A Python [str] is a [list ascii]: one element per code point,
    for code points 0..255.  On that range [str.strip], [str.lower] and the
    classes [\s], [\d], [\w] of the [re] module are the functions below. *)

From Stdlib Require Import Ascii String Bool Arith ZArith QArith Reals Lia Lra.
From Stdlib Require Import List Permutation Sorted.
Import ListNotations.

Close Scope Q_scope.
Close Scope R_scope.
Open Scope nat_scope.

Set Implicit Arguments.

(** ** Characters and strings *)

Abbreviation str := (list ascii) (only parsing).

Definition s2l (s : string) : str := list_ascii_of_string s.
Arguments s2l s%_string.
Notation "'!' s" := (s2l s) (at level 1, s at level 0, format "'!' s").

Definition code (c : ascii) : nat := nat_of_ascii c.

Definition in_range (lo hi : nat) (c : ascii) : bool :=
  (lo <=? code c) && (code c <=? hi).

(** [str.isspace] / [\s]: TAB..CR, FS..US, space, NEL and NBSP. *)
Definition is_space (c : ascii) : bool :=
  in_range 9 13 c || in_range 28 32 c || (code c =? 133) || (code c =? 160).

(** [\d]: the decimal digits. *)
Definition is_digit (c : ascii) : bool := in_range 48 57 c.

Definition is_upper (c : ascii) : bool := in_range 65 90 c.
Definition is_lower (c : ascii) : bool := in_range 97 122 c.

(** [[a-zA-Z]]. *)
Definition is_letter (c : ascii) : bool := is_upper c || is_lower c.

(** [\w]: alphanumeric code points and the underscore. *)
Definition is_word (c : ascii) : bool :=
  is_letter c || is_digit c || (code c =? 95)
  || (code c =? 170) || (code c =? 178) || (code c =? 179) || (code c =? 181)
  || (code c =? 185) || (code c =? 186) || in_range 188 190 c
  || in_range 192 214 c || in_range 216 246 c || in_range 248 255 c.

(** [str.lower] on one code point: A..Z and the accented capitals (192..222
    without the multiplication sign 215) move up by 32. *)
Definition lower_char (c : ascii) : ascii :=
  if is_upper c || (in_range 192 222 c && negb (code c =? 215))
  then ascii_of_nat (code c + 32) else c.

Definition lower (s : str) : str := map lower_char s.

Fixpoint str_eqb (a b : str) : bool :=
  match a, b with
  | [], [] => true
  | x :: a', y :: b' => Ascii.eqb x y && str_eqb a' b'
  | _, _ => false
  end.

Definition mem_str (w : str) (l : list str) : bool := existsb (str_eqb w) l.

(** [s.lstrip()], [s.rstrip()], [s.strip()]. *)
Fixpoint lstrip (s : str) : str :=
  match s with
  | c :: s' => if is_space c then lstrip s' else s
  | [] => []
  end.

Definition rstrip (s : str) : str := rev (lstrip (rev s)).

Definition strip (s : str) : str := rstrip (lstrip s).

Definition NL : ascii := ascii_of_nat 10.
Definition SP : ascii := ascii_of_nat 32.

(** [s.split("\n")]: never empty, one more field than there are newlines. *)
Fixpoint split_lines (s : str) : list str :=
  match s with
  | [] => [[]]
  | c :: s' =>
      if Ascii.eqb c NL then [] :: split_lines s'
      else match split_lines s' with
           | l :: ls => (c :: l) :: ls
           | [] => [[c]]
           end
  end.

(** ["\n".join(ls)]. *)
Fixpoint join_lines (ls : list str) : str :=
  match ls with
  | [] => []
  | [l] => l
  | l :: ls' => l ++ NL :: join_lines ls'
  end.

(** ** Regular expressions

    The fragment of [re] syntax the program uses.  A cursor is the character
    just consumed (none at the start of the subject) and the text still to
    read; [run] lists the cursors a pattern can end at, in the order in which
    the backtracking matcher tries them, so that the head is the match [re]
    reports and the list is empty exactly when there is none. *)

Inductive regex : Type :=
  | Eps : regex
  | Chr : (ascii -> bool) -> regex
  | Look : (option ascii -> option ascii -> bool) -> regex
  | Seq : regex -> regex -> regex
  | Opt : regex -> regex
  | Star : regex -> regex.

Abbreviation cursor := (option ascii * list ascii)%type (only parsing).

Definition peek (s : str) : option ascii :=
  match s with c :: _ => Some c | [] => None end.

(** Greedy iteration, bounded by the length of the remaining text: an
    iteration that consumes nothing is not repeated. *)
Fixpoint star_run (step : cursor -> list cursor) (fuel : nat) (c : cursor)
  : list cursor :=
  match fuel with
  | 0 => [c]
  | S fuel' =>
      flat_map (fun c' =>
                  if length (snd c') <? length (snd c)
                  then star_run step fuel' c' else [])
               (step c)
      ++ [c]
  end.

Fixpoint run (r : regex) (c : cursor) : list cursor :=
  match r with
  | Eps => [c]
  | Chr p =>
      match snd c with
      | x :: rest => if p x then [(Some x, rest)] else []
      | [] => []
      end
  | Look a => if a (fst c) (peek (snd c)) then [c] else []
  | Seq r1 r2 => flat_map (run r2) (run r1 c)
  | Opt r1 => run r1 c ++ [c]
  | Star r1 => star_run (run r1) (length (snd c)) c
  end.

Definition Plus (r : regex) : regex := Seq r (Star r).

Fixpoint seqs (rs : list regex) : regex :=
  match rs with
  | [] => Eps
  | [r] => r
  | r :: rs' => Seq r (seqs rs')
  end.

(** A literal under [(?i)]: each letter matches either case. *)
Definition ci (x : ascii) : regex :=
  Chr (fun c => Ascii.eqb (lower_char c) (lower_char x)).

Definition lit (w : string) : regex := seqs (map ci (s2l w)).
Arguments lit w%_string.

Definition chr (x : ascii) : regex := Chr (Ascii.eqb x).

Definition opt_is (p : ascii -> bool) (o : option ascii) : bool :=
  match o with Some c => p c | None => false end.

(** [\b], [^] (without MULTILINE), [(?<=[...])] and [(?=[...])]. *)
Definition word_boundary : regex :=
  Look (fun prev next => xorb (opt_is is_word prev) (opt_is is_word next)).
Definition bol : regex :=
  Look (fun prev _ => match prev with None => true | Some _ => false end).
Definition behind (p : ascii -> bool) : regex := Look (fun prev _ => opt_is p prev).
Definition ahead (p : ascii -> bool) : regex := Look (fun _ next => opt_is p next).

(** [re.match(pattern, s)] as a truth value. *)
Definition re_match (r : regex) (s : str) : bool :=
  match run r (None, s) with [] => false | _ :: _ => true end.

(** The leftmost match starting at cursor [c], when it consumes something:
    the matched text and the cursor after it. *)
Definition match_here (r : regex) (c : cursor) : option (str * cursor) :=
  match run r c with
  | [] => None
  | c' :: _ =>
      let n := length (snd c) - length (snd c') in
      if n =? 0 then None else Some (firstn n (snd c), c')
  end.

(** One left-to-right scan for the non-overlapping matches of a pattern that
    never matches the empty string.  The result alternates the text between
    matches with the matched texts: [scan] returns the pieces and matches of
    the remaining text, the piece under construction being [acc] reversed. *)
Inductive piece : Type :=
  | Gap : str -> piece
  | Hit : str -> piece.

Fixpoint scan (r : regex) (fuel : nat) (acc : str) (c : cursor) : list piece :=
  match fuel with
  | 0 => [Gap (rev acc)]
  | S fuel' =>
      match match_here r c with
      | Some (m, c') => Gap (rev acc) :: Hit m :: scan r fuel' [] c'
      | None =>
          match snd c with
          | [] => [Gap (rev acc)]
          | x :: rest => scan r fuel' (x :: acc) (Some x, rest)
          end
      end
  end.

Definition pieces (r : regex) (s : str) : list piece :=
  scan r (S (length s)) [] (None, s).

(** The matched texts among the pieces. *)
Definition hits (ps : list piece) : list str :=
  flat_map (fun p => match p with Hit m => [m] | Gap _ => [] end) ps.

(** [re.findall(r, s)], [re.sub(r, repl, s)] and [re.split(r, s)] for a
    pattern without groups. *)
Definition re_findall (r : regex) (s : str) : list str := hits (pieces r s).

Definition re_sub (r : regex) (repl : str) (s : str) : str :=
  flat_map (fun p => match p with Hit _ => repl | Gap g => g end) (pieces r s).

Definition re_split (r : regex) (s : str) : list str :=
  flat_map (fun p => match p with Hit _ => [] | Gap g => [g] end) (pieces r s).

(** ** Constants *)

(** Every heading pattern is case-insensitive and anchored, starts with an
    optional numbering (digits, an optional full stop, any white space) and
    ends with a word boundary after the heading's own words. *)
Definition numbering : regex :=
  Opt (seqs [Plus (Chr is_digit); Opt (chr "."%char); Star (Chr is_space)]).

Definition heading (body : regex) : regex :=
  seqs [bol; numbering; body; word_boundary].

Definition ws1 : regex := Plus (Chr is_space).

Definition SECTION_PATTERNS : list (regex * str) :=
  [ (heading (lit "abstract"), !"Abstract");
    (heading (lit "introduction"), !"Introduction");
    (heading (lit "background"), !"Background");
    (heading (seqs [Opt (seqs [lit "material"; Opt (ci "s"%char); ws1; lit "and"; ws1]);
                    lit "method"; Opt (ci "s"%char)]), !"Methods");
    (heading (lit "experimental"), !"Methods");
    (heading (seqs [lit "result"; Opt (ci "s"%char)]), !"Results");
    (heading (seqs [lit "result"; Opt (ci "s"%char); ws1; lit "and"; ws1; lit "discussion"]),
     !"Results and Discussion");
    (heading (lit "discussion"), !"Discussion");
    (heading (seqs [lit "conclusion"; Opt (ci "s"%char)]), !"Conclusion");
    (heading (lit "summary"), !"Summary");
    (heading (seqs [lit "acknowledg"; Opt (ci "e"%char); lit "ment"; Opt (ci "s"%char)]),
     !"Acknowledgements");
    (heading (seqs [lit "reference"; Opt (ci "s"%char)]), !"References");
    (heading (lit "supplementary"), !"Supplementary");
    (heading (lit "funding"), !"Funding");
    (heading (seqs [lit "author"; ws1; lit "contribution"; Opt (ci "s"%char)]),
     !"Author Contributions");
    (heading (seqs [lit "competing"; ws1; lit "interest"; Opt (ci "s"%char)]),
     !"Competing Interests");
    (heading (seqs [lit "data"; ws1; lit "availability"]), !"Data Availability") ].

Definition SKIP_SECTIONS : list str :=
  [ !"References"; !"Acknowledgements"; !"Supplementary"; !"Funding";
    !"Author Contributions"; !"Competing Interests"; !"Data Availability" ].

Definition STOP_WORDS : list str :=
  map s2l
  [ "a"; "an"; "the"; "and"; "or"; "but"; "in"; "on"; "at"; "to"; "for";
    "of"; "with"; "by"; "from"; "is"; "are"; "was"; "were"; "be"; "been";
    "being"; "have"; "has"; "had"; "do"; "does"; "did"; "will"; "would";
    "could"; "should"; "may"; "might"; "shall"; "can"; "this"; "that";
    "these"; "those"; "it"; "its"; "not"; "no"; "nor"; "as"; "if"; "than";
    "so"; "such"; "when"; "where"; "which"; "who"; "whom"; "what"; "how";
    "all"; "each"; "both"; "more"; "most"; "other"; "some"; "any"; "into";
    "through"; "during"; "before"; "after"; "above"; "below"; "between";
    "also"; "very"; "often"; "however"; "further"; "then"; "here"; "there";
    "about"; "up"; "out"; "over"; "under"; "again"; "once"; "our"; "we";
    "they"; "their"; "them"; "he"; "she"; "his"; "her"; "you"; "your" ]%string.

(** The inner loop of [_detect_sections]: the name of the first pattern of
    the list that matches the (stripped) line. *)
Fixpoint first_match (pats : list (regex * str)) (line : str) : option str :=
  match pats with
  | [] => None
  | (pat, name) :: pats' =>
      if re_match pat line then Some name else first_match pats' line
  end.

(** ** Title estimation *)

Definition is_heading (line : str) : bool :=
  existsb (fun pn => re_match (fst pn) line) SECTION_PATTERNS.

(** The return value of [_estimate_title]: a line of the text, or the fixed
    sentinel, whose characters lie outside the code points of [str]. *)
Inductive estimated_title : Type :=
  | TitleUnknown : estimated_title
  | TitleLine : str -> estimated_title.

(** [[ln.strip() for ln in lines if ln.strip()]]. *)
Definition stripped_nonempty (lines : list str) : list str :=
  filter (fun l => negb (length l =? 0)) (map strip lines).

(** The candidate loop, [candidates] being the list built so far. *)
Fixpoint title_loop (lines candidates : list str) : list str :=
  match lines with
  | [] => candidates
  | line :: rest =>
      if is_heading line then candidates
      else
        let candidates' :=
          if 10 <? length line then candidates ++ [line] else candidates in
        if 3 <=? length candidates' then candidates'
        else title_loop rest candidates'
  end.

Definition title_lines (raw_text : str) : list str :=
  stripped_nonempty (firstn 15 (split_lines raw_text)).

Definition _estimate_title (raw_text : str) : estimated_title :=
  match title_lines raw_text with
  | [] => TitleUnknown
  | first :: _ =>
      match title_loop (title_lines raw_text) [] with
      | [] => TitleLine first
      | c :: _ => TitleLine c
      end
  end.

(** ** Sentence splitting *)

Definition is_terminator (c : ascii) : bool :=
  Ascii.eqb c "."%char || Ascii.eqb c "!"%char || Ascii.eqb c "?"%char.

(** A terminator behind, white space, a capital A..Z ahead. *)
Definition sentence_boundary : regex :=
  seqs [behind is_terminator; Plus (Chr is_space); ahead is_upper].

Definition _split_sentences (text : str) : list str :=
  let text := re_sub (Plus (chr NL)) [SP] text in
  let text := strip (re_sub (Plus (Chr is_space)) [SP] text) in
  let sentences := re_split sentence_boundary text in
  map strip (filter (fun s => 10 <? length (strip s)) sentences).

(** ** Section detection *)

Record PaperSection : Type := mkSection {
  name : str;
  text : str;
  sentences : list str;
  summary_sentences : list str
}.

(** The scan for headings over [enumerate(lines)], from index [i] on. *)
Fixpoint find_breaks (i : nat) (lines : list str) : list (nat * str) :=
  match lines with
  | [] => []
  | line :: rest =>
      let stripped := strip line in
      match stripped with
      | [] => find_breaks (S i) rest
      | _ :: _ =>
          match first_match SECTION_PATTERNS stripped with
          | Some section_name => (i, section_name) :: find_breaks (S i) rest
          | None => find_breaks (S i) rest
          end
      end
  end.

(** [l[a:b]] for indices that are not negative. *)
Definition slice {A : Type} (l : list A) (a b : nat) : list A :=
  skipn a (firstn b l).

Fixpoint build_sections (lines : list str) (breaks : list (nat * str))
  : list PaperSection :=
  match breaks with
  | [] => []
  | (line_no, nm) :: rest =>
      let end_line :=
        match rest with
        | (next, _) :: _ => next
        | [] => length lines
        end in
      let section_text := join_lines (slice lines line_no end_line) in
      mkSection nm section_text (_split_sentences section_text) []
      :: build_sections lines rest
  end.

Definition section_breaks (raw_text : str) : list (nat * str) :=
  find_breaks 0 (split_lines raw_text).

Definition _detect_sections (raw_text : str) : list PaperSection :=
  let lines := split_lines raw_text in
  match section_breaks raw_text with
  | [] =>
      let full_text := join_lines lines in
      [mkSection !"Full Text" full_text (_split_sentences full_text) []]
  | _ :: _ => build_sections lines (section_breaks raw_text)
  end.

(** ** Tokenizer *)

Definition word_pattern : regex :=
  seqs [Chr is_letter; Chr is_letter; Star (Chr is_letter)].

Definition _tokenize (text : str) : list str :=
  let words := re_findall word_pattern (lower text) in
  filter (fun w => negb (mem_str w STOP_WORDS)) words.

(** ** Exceptions *)

Inductive py_exn : Type :=
  | ZeroDivisionError : py_exn
  | ValueError : py_exn
  | ExtractionError : py_exn.

Inductive result (A : Type) : Type :=
  | Ok : A -> result A
  | Raise : py_exn -> result A.
Arguments Ok {A} _.
Arguments Raise {A} _.

Definition bind {A B : Type} (m : result A) (k : A -> result B) : result B :=
  match m with
  | Ok a => k a
  | Raise e => Raise e
  end.

Notation "x <- m ;; k" := (bind m (fun x => k))
  (at level 61, m at next level, right associativity).

(** A loop or comprehension whose body may raise. *)
Fixpoint for_each {A B : Type} (f : A -> result B) (l : list A)
  : result (list B) :=
  match l with
  | [] => Ok []
  | a :: l' => b <- f a ;; bs <- for_each f l' ;; Ok (b :: bs)
  end.

(** ** Dictionaries, counters and slices

    A [dict] keeps its keys in insertion order; assigning to a key that is
    present keeps its place. *)

Definition dict (V : Type) : Type := list (str * V).

Fixpoint dict_get {V : Type} (d : dict V) (k : str) : option V :=
  match d with
  | [] => None
  | (k', v) :: d' => if str_eqb k' k then Some v else dict_get d' k
  end.

(** [d.get(k, default)]. *)
Definition get_or {V : Type} (d : dict V) (k : str) (default : V) : V :=
  match dict_get d k with Some v => v | None => default end.

Definition keys {V : Type} (d : dict V) : list str := map fst d.

(** [counter[w] += 1]. *)
Fixpoint incr (w : str) (counter : dict nat) : dict nat :=
  match counter with
  | [] => [(w, 1)]
  | (k, c) :: counter' =>
      if str_eqb k w then (k, S c) :: counter' else (k, c) :: incr w counter'
  end.

Definition Counter (words : list str) : dict nat :=
  fold_left (fun counter w => incr w counter) words [].

(** [set(doc)], listed by first occurrence; the order in which Python visits
    a set is not fixed, and nothing below depends on it. *)
Fixpoint set_of (doc : list str) : list str :=
  match doc with
  | [] => []
  | w :: doc' => w :: filter (fun w' => negb (str_eqb w w')) (set_of doc')
  end.

(** [l[:k]] for any integer [k]. *)
Definition slice_to {A : Type} (l : list A) (k : Z) : list A :=
  if (k <? 0)%Z then firstn (length l - Z.to_nat (- k)) l
  else firstn (Z.to_nat k) l.

(** [list.sort(key=...)] / [sorted]: stable, comparing keys with [<] only. *)
Section Sorting.
Variables (A K : Type) (lt : K -> K -> bool) (key : A -> K).

Fixpoint insert_sorted (x : A) (l : list A) : list A :=
  match l with
  | [] => [x]
  | y :: l' =>
      if lt (key x) (key y) then x :: l else y :: insert_sorted x l'
  end.

(** Elements are inserted from the left, each one after the elements
    already placed whose key is not greater. *)
Definition sort_by (l : list A) : list A :=
  fold_left (fun acc x => insert_sorted x acc) l [].
End Sorting.

(** ** TF-IDF

    Python floats are kept abstract: a type [F] with the operations the
    program applies to floats.  [int_div a b] is the float [a / b] of two
    integers with [b] not zero, [flog] is [math.log] on a positive argument,
    [fzero] the float of the integer [0], [fltb] the comparison [<]. *)
Class FloatOps : Type := {
  F : Type;
  fzero : F;
  int_div : nat -> nat -> F;
  flog : F -> F;
  fmul : F -> F -> F;
  fadd : F -> F -> F;
  fneg : F -> F;
  fltb : F -> F -> bool
}.

Record PaperInfo : Type := mkPaperInfo {
  file_path : str;
  title : estimated_title;
  total_pages : nat;
  raw_text : str;
  sections : list PaperSection;
  keywords : list str
}.

Section TfIdf.
Context {ops : FloatOps}.

(** [a / b] on integers. *)
Definition truediv (a b : nat) : result F :=
  if b =? 0 then Raise ZeroDivisionError else Ok (int_div a b).

(** [math.log(x)]. *)
Definition math_log (x : F) : result F :=
  if fltb fzero x then Ok (flog x) else Raise ValueError.

(** [{k: f(k, v) for k, v in d.items()}]. *)
Definition dict_comp {V W : Type} (f : str -> V -> result W) (d : dict V)
  : result (dict W) :=
  for_each (fun kv => w <- f (fst kv) (snd kv) ;; Ok (fst kv, w)) d.

Definition _compute_tf (words : list str) : result (dict F) :=
  let counter := Counter words in
  let total := length words in
  if total =? 0 then Ok []
  else dict_comp (fun _ c => truediv c total) counter.

(** The document-frequency counter after the loop over [documents]. *)
Definition count_documents (documents : list (list str)) : dict nat :=
  fold_left
    (fun df doc => fold_left (fun df w => incr w df) (set_of doc) df)
    documents [].

Definition _compute_idf (documents : list (list str)) : result (dict F) :=
  let n_docs := length documents in
  if n_docs =? 0 then Ok []
  else
    let df := count_documents documents in
    dict_comp (fun _ count => q <- truediv n_docs (1 + count) ;; math_log q) df.

(** [sum(...)]: the integer [0] plus the terms, left to right. *)
Definition fsum (l : list F) : F := fold_left fadd l fzero.

Definition tfidf_of (tf idf : dict F) (w : str) : F :=
  fmul (get_or tf w fzero) (get_or idf w fzero).

Definition scored_sentence : Type := F * nat * str.

(** The loop of [_score_sentences] over [enumerate(sentences)] from [i]. *)
Fixpoint score_loop (i : nat) (sentences : list str) (idf : dict F)
  : result (list scored_sentence) :=
  match sentences with
  | [] => Ok []
  | sent :: rest =>
      let words := _tokenize sent in
      match words with
      | [] => score_loop (S i) rest idf
      | _ :: _ =>
          tf <- _compute_tf words ;;
          let score := fsum (map (tfidf_of tf idf) (keys tf)) in
          scored <- score_loop (S i) rest idf ;;
          Ok ((score, i, sent) :: scored)
      end
  end.

Definition _score_sentences (sentences : list str) (idf : dict F)
  : result (list scored_sentence) :=
  scored <- score_loop 0 sentences idf ;;
  Ok (sort_by fltb (fun x : scored_sentence => fneg (fst (fst x))) scored).

Definition summarize_section (section : PaperSection) (idf : dict F)
           (max_sentences : Z) : result (list str) :=
  match sentences section with
  | [] => Ok []
  | _ :: _ =>
      scored <- _score_sentences (sentences section) idf ;;
      let top_n := slice_to scored max_sentences in
      let top_n := sort_by Nat.ltb (fun x : scored_sentence => snd (fst x)) top_n in
      Ok (map snd top_n)
  end.

Definition extract_keywords (raw_text : str) (top_n : Z) : result (list str) :=
  let sentences := _split_sentences raw_text in
  let docs := map _tokenize sentences in
  idf <- _compute_idf docs ;;
  let all_words := _tokenize raw_text in
  tf <- _compute_tf all_words ;;
  let tfidf_scores := map (fun w => (w, tfidf_of tf idf w)) (keys tf) in
  let sorted_words :=
    sort_by fltb (fun x : str * F => fneg (snd x)) tfidf_scores in
  Ok (map fst (slice_to sorted_words top_n)).

(** ** Analysis driver *)

(** The PDF reader is outside the program: a path gives the text and the
    page count, or an exception. *)
Variable extract_text_from_pdf : str -> result (str * nat).

(** The body of the loop that fills [summary_sentences]. *)
Definition summarize_if_wanted (idf : dict F) (sentences_per_section : Z)
           (sec : PaperSection) : result PaperSection :=
  if negb (mem_str (name sec) SKIP_SECTIONS) then
    summary <- summarize_section sec idf sentences_per_section ;;
    Ok (mkSection (name sec) (text sec) (sentences sec) summary)
  else Ok sec.

Definition analyze_paper (pdf_path : str) (sentences_per_section : Z)
           (num_keywords : Z) : result PaperInfo :=
  extracted <- extract_text_from_pdf pdf_path ;;
  let raw := fst extracted in
  let pages := snd extracted in
  let ttl := _estimate_title raw in
  let secs := _detect_sections raw in
  let all_sentences := flat_map sentences secs in
  let all_docs := map _tokenize all_sentences in
  idf <- _compute_idf all_docs ;;
  secs' <- for_each (summarize_if_wanted idf sentences_per_section) secs ;;
  kws <- extract_keywords raw num_keywords ;;
  Ok (mkPaperInfo pdf_path ttl pages raw secs' kws).
End TfIdf.

Unset Implicit Arguments.

(** * Definitions used to state the properties *)

(** A line in the sense of [split_lines]. *)
Definition no_newline (l : str) : Prop := ~ In NL l.

(** Break indices increase strictly and stay within [lo, hi). *)
Fixpoint breaks_between (lo hi : nat) (breaks : list (nat * str)) : Prop :=
  match breaks with
  | [] => True
  | (k, _) :: rest => lo <= k < hi /\ breaks_between (S k) hi rest
  end.

(** The line sequence covered by a list of sections. *)
Definition section_lines (secs : list PaperSection) : list str :=
  flat_map (fun s => split_lines (text s)) secs.

(** The sixth and the seventh entry of [SECTION_PATTERNS]. *)
Definition results_pattern : regex :=
  heading (seqs [lit "result"; Opt (ci "s"%char)]).

Definition results_and_discussion_pattern : regex :=
  heading (seqs [lit "result"; Opt (ci "s"%char); ws1; lit "and"; ws1;
                 lit "discussion"]).

(** The lines in front of the first line that looks like a heading. *)
Fixpoint before_heading (lines : list str) : list str :=
  match lines with
  | [] => []
  | l :: rest => if is_heading l then [] else l :: before_heading rest
  end.

(** A candidate: more than 10 characters. *)
Definition long_line (l : str) : bool := 10 <? length l.

(** The title as the claim words it: the first 15 non-empty lines are
    scanned. *)
Definition title_of_first_15_nonempty (raw_text : str) : estimated_title :=
  let lines := firstn 15 (stripped_nonempty (split_lines raw_text)) in
  match lines with
  | [] => TitleUnknown
  | first :: _ =>
      match firstn 3 (filter long_line (before_heading lines)) with
      | [] => TitleLine first
      | c :: _ => TitleLine c
      end
  end.

(** The longest prefix in a character class, and what follows it. *)
Fixpoint take_while (p : ascii -> bool) (s : str) : str :=
  match s with
  | c :: s' => if p c then c :: take_while p s' else []
  | [] => []
  end.

Fixpoint drop_while (p : ascii -> bool) (s : str) : str :=
  match s with
  | c :: s' => if p c then drop_while p s' else s
  | [] => []
  end.

(** The maximal runs of ASCII letters of a string, in order of occurrence:
    a letter starts a new run unless a letter follows it, in which case it
    extends the run that follows. *)
Fixpoint letter_runs (s : str) : list str :=
  match s with
  | [] => []
  | c :: s' =>
      if is_letter c then
        match letter_runs s' with
        | r :: rs =>
            if opt_is is_letter (peek s') then (c :: r) :: rs
            else [c] :: r :: rs
        | [] => [[c]]
        end
      else letter_runs s'
  end.

(** The tokens as the specification words them. *)
Definition tokens_by_runs (text : str) : list str :=
  filter (fun w => negb (mem_str w STOP_WORDS))
         (filter (fun r => 2 <=? length r) (letter_runs (lower text))).

(** The document frequency as the specification words it: the number of
    documents that contain the term at least once. *)
Definition document_frequency (t : str) (documents : list (list str)) : nat :=
  length (filter (mem_str t) documents).

(** Whether the tokenizer leaves anything of a sentence. *)
Definition has_tokens (s : str) : bool :=
  match _tokenize s with [] => false | _ :: _ => true end.

(** The comparison [<] of two real numbers as a truth value. *)
Definition Rltb (x y : R) : bool := if Rlt_dec x y then true else false.

(** Floats read as real numbers: exact quotient and natural logarithm. *)
Definition real_ops : FloatOps :=
  {| F := R;
     fzero := 0%R;
     int_div := fun a b => (INR a / INR b)%R;
     flog := ln;
     fmul := Rmult;
     fadd := Rplus;
     fneg := Ropp;
     fltb := Rltb |}.

(** A computable reading of the floats: exact rationals, with the tangent
    [x - 1] of the logarithm at 1 in place of the logarithm; enough to run
    every definition on examples. *)
Definition Qltb (x y : Q) : bool :=
  (Qnum x * QDen y <? Qnum y * QDen x)%Z.

Definition rational_ops : FloatOps :=
  {| F := Q;
     fzero := 0%Q;
     int_div := fun a b => Qmake (Z.of_nat a) (Pos.of_nat b);
     flog := fun x => Qminus x 1%Q;
     fmul := Qmult;
     fadd := Qplus;
     fneg := Qopp;
     fltb := Qltb |}.

(** The scenario of the specification: two numbered sections with two
    sentences each, then the references. *)
Definition sample_paper : str :=
  !"A Study of Peptide Masses
1. Introduction
Peptide masses are computed from residues. The residues carry known masses.
2. Methods
We sum the residue masses of each peptide. Water is added once per chain.
References
[1] A. Author, Journal of Mass, 2020.".

Definition sample_reader (path : str) : result (str * nat) :=
  Ok (sample_paper, 1).

(** A list in ascending order of a natural-number key. *)
Definition sorted_by_key {A : Type} (key : A -> nat) (l : list A) : Prop :=
  StronglySorted (fun x y => key x <= key y) l.

(** The index component of a scored sentence. *)
Definition index_of {ops : FloatOps} (x : scored_sentence) : nat :=
  snd (fst x).

(** What [find_breaks] asks of one line: the name the line gets as a
    heading, if any. *)
Definition line_heading (line : str) : option str :=
  match strip line with
  | [] => None
  | _ :: _ => first_match SECTION_PATTERNS (strip line)
  end.

(** The lines up to the next heading line. *)
Fixpoint body_of (lines : list str) : list str :=
  match lines with
  | [] => []
  | l :: rest =>
      match line_heading l with
      | Some _ => []
      | None => l :: body_of rest
      end
  end.

(** One group per heading line: its name, the heading line and the lines
    up to the next heading. *)
Fixpoint heading_groups (lines : list str) : list (str * list str) :=
  match lines with
  | [] => []
  | l :: rest =>
      match line_heading l with
      | Some nm => (nm, l :: body_of rest) :: heading_groups rest
      | None => heading_groups rest
      end
  end.

(** The number of occurrences of a word in a word list. *)
Definition count_str (w : str) (ws : list str) : nat :=
  length (filter (str_eqb w) ws).



(** The text a piece stands for. *)
Definition piece_text (p : piece) : str :=
  match p with Gap g => g | Hit m => m end.

(** The order a stable sort by [key] leaves between two elements, the first
    of which stands before the second: the second key is not less than the
    first, and with keys neither of which is less than the other the two
    elements stand as they stood before the sort ([before]). *)
Definition ranked {A K : Type} (lt : K -> K -> bool) (key : A -> K)
           (before : A -> A -> Prop) (x y : A) : Prop :=
  lt (key y) (key x) = false /\ (lt (key x) (key y) = false -> before x y).

(** The score [_score_sentences] gives a sentence. *)
Definition sentence_score {ops : FloatOps} (idf : dict F) (sent : str) : F :=
  match _compute_tf (_tokenize sent) with
  | Ok tf => fsum (map (tfidf_of tf idf) (keys tf))
  | Raise _ => fzero
  end.

(** The position of the first occurrence of a word in a list. *)
Fixpoint first_index (w : str) (ws : list str) : nat :=
  match ws with
  | [] => 0
  | x :: ws' => if str_eqb x w then 0 else S (first_index w ws')
  end.

(** The score table of [extract_keywords] before it is sorted. *)
Definition tfidf_scores {ops : FloatOps} (raw_text : str)
  : result (dict F) :=
  idf <- _compute_idf (map _tokenize (_split_sentences raw_text)) ;;
  tf <- _compute_tf (_tokenize raw_text) ;;
  Ok (map (fun w => (w, tfidf_of tf idf w)) (keys tf)).

(** Every character. *)
Definition all_ascii : list ascii := map ascii_of_nat (seq 0 256).

(** Whether every character of a class belongs to another. *)
Definition class_within (p P : ascii -> bool) : bool :=
  forallb (fun c => implb (p c) (P c)) all_ascii.

(** A pattern that may match without reading a character. *)
Fixpoint nullable (r : regex) : bool :=
  match r with
  | Eps => true
  | Chr _ => false
  | Look _ => true
  | Seq r1 r2 => nullable r1 && nullable r2
  | Opt _ => true
  | Star _ => true
  end.

(** A pattern without assertions. *)
Fixpoint no_look (r : regex) : bool :=
  match r with
  | Eps => true
  | Chr _ => true
  | Look _ => false
  | Seq r1 r2 => no_look r1 && no_look r2
  | Opt r1 => no_look r1
  | Star r1 => no_look r1
  end.

(** A pattern whose matches can only begin with a character of [P]. *)
Fixpoint first_within (P : ascii -> bool) (r : regex) : bool :=
  match r with
  | Eps => true
  | Chr p => class_within p P
  | Look _ => true
  | Seq r1 r2 =>
      first_within P r1 && (negb (nullable r1) || first_within P r2)
  | Opt r1 => first_within P r1
  | Star r1 => first_within P r1
  end.

(** A pattern that reads characters of [P] only. *)
Fixpoint reads_within (P : ascii -> bool) (r : regex) : bool :=
  match r with
  | Eps => true
  | Chr p => class_within p P
  | Look _ => true
  | Seq r1 r2 => reads_within P r1 && reads_within P r2
  | Opt r1 => reads_within P r1
  | Star r1 => reads_within P r1
  end.

(** What a heading's own words must be for its numbering to be left out:
    no assertion, at least one character, a letter to begin with. *)
Definition wordy (body : regex) : bool :=
  no_look body && negb (nullable body) && first_within is_letter body.

(** A numbering: digits, possibly a full stop, possibly white space. *)
Definition numbering_text (digits : str) (dot : bool) (spaces : str) : str :=
  digits ++ (if dot then ["."%char] else []) ++ spaces.

(** The character just read after [pre], [prev] when [pre] is empty. *)
Definition last_read (prev : option ascii) (pre : str) : option ascii :=
  match rev pre with
  | x :: _ => Some x
  | [] => prev
  end.

(** The heading patterns without their common frame: the words of each
    heading, with its name. *)
Definition SECTION_BODIES : list (regex * str) :=
  [ (lit "abstract", !"Abstract");
    (lit "introduction", !"Introduction");
    (lit "background", !"Background");
    (seqs [Opt (seqs [lit "material"; Opt (ci "s"%char); ws1; lit "and"; ws1]);
           lit "method"; Opt (ci "s"%char)], !"Methods");
    (lit "experimental", !"Methods");
    (seqs [lit "result"; Opt (ci "s"%char)], !"Results");
    (seqs [lit "result"; Opt (ci "s"%char); ws1; lit "and"; ws1; lit "discussion"],
     !"Results and Discussion");
    (lit "discussion", !"Discussion");
    (seqs [lit "conclusion"; Opt (ci "s"%char)], !"Conclusion");
    (lit "summary", !"Summary");
    (seqs [lit "acknowledg"; Opt (ci "e"%char); lit "ment"; Opt (ci "s"%char)],
     !"Acknowledgements");
    (seqs [lit "reference"; Opt (ci "s"%char)], !"References");
    (lit "supplementary", !"Supplementary");
    (lit "funding", !"Funding");
    (seqs [lit "author"; ws1; lit "contribution"; Opt (ci "s"%char)],
     !"Author Contributions");
    (seqs [lit "competing"; ws1; lit "interest"; Opt (ci "s"%char)],
     !"Competing Interests");
    (seqs [lit "data"; ws1; lit "availability"], !"Data Availability") ].

(** A character a numbering is made of. *)
Definition is_numbering_char (c : ascii) : bool :=
  is_digit c || Ascii.eqb "."%char c || is_space c.

(** * Properties *)

(** ** Strings and lines *)

Lemma str_eqb_eq (a b : str) : str_eqb a b = true <-> a = b.
Proof.
  revert b; induction a as [|x a IH]; intros [|y b]; simpl; split;
    try congruence; try reflexivity.
  - rewrite andb_true_iff, Ascii.eqb_eq, IH. intros [-> ->]; reflexivity.
  - intros [= -> ->]. rewrite Ascii.eqb_refl. apply IH. reflexivity.
Qed.

Lemma str_eqb_refl (a : str) : str_eqb a a = true.
Proof. apply str_eqb_eq; reflexivity. Qed.

Lemma str_eqb_neq (a b : str) : str_eqb a b = false <-> a <> b.
Proof.
  rewrite <- str_eqb_eq. destruct (str_eqb a b); split; congruence.
Qed.

Lemma str_eqb_sym (a b : str) : str_eqb a b = str_eqb b a.
Proof.
  destruct (str_eqb a b) eqn:E.
  - apply str_eqb_eq in E; subst. symmetry; apply str_eqb_refl.
  - apply str_eqb_neq in E. symmetry; apply str_eqb_neq. congruence.
Qed.

Lemma mem_str_In (w : str) (l : list str) : mem_str w l = true <-> In w l.
Proof.
  unfold mem_str. rewrite existsb_exists. split.
  - intros (x & Hx & E). apply str_eqb_eq in E. subst; assumption.
  - intros H. exists w. split; [assumption | apply str_eqb_refl].
Qed.

Lemma split_lines_nonempty (s : str) : split_lines s <> [].
Proof.
  destruct s as [|c s]; simpl; [discriminate|].
  destruct (Ascii.eqb c NL); [discriminate|].
  destruct (split_lines s); discriminate.
Qed.

Lemma split_lines_no_newline (s : str) : Forall no_newline (split_lines s).
Proof.
  induction s as [|c s IH]; simpl.
  - constructor; [intros [] | constructor].
  - destruct (Ascii.eqb c NL) eqn:E.
    + constructor; [intros [] | assumption].
    + destruct (split_lines s) as [|l ls]; constructor.
      * intros [H|[]]. subst. rewrite Ascii.eqb_refl in E. discriminate.
      * constructor.
      * inversion IH; subst. intros [H|H]; [|contradiction].
        subst. rewrite Ascii.eqb_refl in E. discriminate.
      * inversion IH; assumption.
Qed.

Lemma join_split_lines (s : str) : join_lines (split_lines s) = s.
Proof.
  induction s as [|c s IH]; simpl; [reflexivity|].
  destruct (Ascii.eqb c NL) eqn:E.
  - apply Ascii.eqb_eq in E. subst c.
    pose proof (split_lines_nonempty s) as Hne.
    destruct (split_lines s) as [|l ls]; [contradiction|].
    simpl in *. rewrite IH. reflexivity.
  - pose proof (split_lines_nonempty s) as Hne.
    destruct (split_lines s) as [|l ls]; [contradiction|].
    destruct ls; simpl in *; rewrite <- IH; reflexivity.
Qed.

Lemma split_lines_app_newline (l rest : str) :
  no_newline l -> split_lines (l ++ NL :: rest) = l :: split_lines rest.
Proof.
  induction l as [|c l IH]; intros Hl; simpl.
  - reflexivity.
  - destruct (Ascii.eqb c NL) eqn:E.
    + apply Ascii.eqb_eq in E. subst. exfalso. apply Hl. left; reflexivity.
    + rewrite IH; [reflexivity|]. intros H. apply Hl. right; assumption.
Qed.

Lemma split_lines_single (l : str) : no_newline l -> split_lines l = [l].
Proof.
  induction l as [|c l IH]; intros Hl; simpl; [reflexivity|].
  destruct (Ascii.eqb c NL) eqn:E.
  - apply Ascii.eqb_eq in E. subst. exfalso. apply Hl. left; reflexivity.
  - rewrite IH; [reflexivity|]. intros H. apply Hl. right; assumption.
Qed.

Lemma split_join_lines (ls : list str) :
  ls <> [] -> Forall no_newline ls -> split_lines (join_lines ls) = ls.
Proof.
  induction ls as [|l ls IH]; intros Hne Hall; [contradiction|].
  inversion Hall as [|? ? Hl Hls]; subst.
  destruct ls as [|l' ls].
  - simpl. apply split_lines_single; assumption.
  - change (join_lines (l :: l' :: ls)) with (l ++ NL :: join_lines (l' :: ls)).
    rewrite split_lines_app_newline by assumption.
    rewrite IH; [reflexivity | discriminate | assumption].
Qed.

(** ** Section detection *)

Lemma breaks_between_weaken (lo lo' hi : nat) (breaks : list (nat * str)) :
  lo' <= lo -> breaks_between lo hi breaks -> breaks_between lo' hi breaks.
Proof.
  destruct breaks as [|[k n] rest]; simpl; [trivial|].
  intros Hle [Hk Hrest]. split; [lia | assumption].
Qed.

Lemma find_breaks_between (lines : list str) (i : nat) :
  breaks_between i (i + length lines) (find_breaks i lines).
Proof.
  revert i; induction lines as [|line rest IH]; intros i;
    cbn [find_breaks length]; [exact I|].
  assert (Hnext : breaks_between i (i + S (length rest)) (find_breaks (S i) rest)).
  { apply breaks_between_weaken with (lo := S i); [lia|].
    replace (i + S (length rest)) with (S i + length rest) by lia. apply IH. }
  destruct (strip line) as [|c stripped]; [assumption|].
  destruct (first_match SECTION_PATTERNS (c :: stripped)); [|assumption].
  cbn [breaks_between]. split; [lia|].
  replace (i + S (length rest)) with (S i + length rest) by lia. apply IH.
Qed.

Lemma slice_app_skipn {A : Type} (l : list A) (a b : nat) :
  a <= b <= length l -> slice l a b ++ skipn b l = skipn a l.
Proof.
  intros H. unfold slice.
  rewrite <- (firstn_skipn b l) at 3.
  rewrite skipn_app, length_firstn.
  replace (a - Nat.min b (length l)) with 0 by lia. reflexivity.
Qed.

Lemma slice_nonempty {A : Type} (l : list A) (a b : nat) :
  a < b <= length l -> slice l a b <> [].
Proof.
  intros H E. apply (f_equal (@length A)) in E. unfold slice in E.
  rewrite length_skipn, length_firstn in E. simpl in E. lia.
Qed.

Lemma In_firstn {A : Type} (x : A) (n : nat) (l : list A) :
  In x (firstn n l) -> In x l.
Proof.
  intros H. rewrite <- (firstn_skipn n l). apply in_or_app. left; assumption.
Qed.

Lemma In_skipn {A : Type} (x : A) (n : nat) (l : list A) :
  In x (skipn n l) -> In x l.
Proof.
  intros H. rewrite <- (firstn_skipn n l). apply in_or_app. right; assumption.
Qed.

Lemma slice_Forall {A : Type} (P : A -> Prop) (l : list A) (a b : nat) :
  Forall P l -> Forall P (slice l a b).
Proof.
  intros H. unfold slice. apply Forall_forall. intros x Hx.
  rewrite Forall_forall in H. apply H.
  apply (In_firstn x b). apply (In_skipn x a). assumption.
Qed.

Lemma build_sections_lines (lines : list str) :
  Forall no_newline lines ->
  forall rest k nm lo,
    breaks_between lo (length lines) ((k, nm) :: rest) ->
    section_lines (build_sections lines ((k, nm) :: rest)) = skipn k lines.
Proof.
  intros Hnl. induction rest as [|[k' nm'] rest IH]; intros k nm lo [Hk Hrest].
  - simpl. rewrite app_nil_r.
    rewrite split_join_lines.
    + unfold slice. rewrite firstn_all. reflexivity.
    + apply slice_nonempty. lia.
    + apply slice_Forall. assumption.
  - assert (Hk' : S k <= k' < length lines) by (destruct Hrest; assumption).
    change (section_lines (build_sections lines ((k, nm) :: (k', nm') :: rest)))
      with (split_lines (join_lines (slice lines k k'))
            ++ section_lines (build_sections lines ((k', nm') :: rest))).
    rewrite (IH k' nm' (S k) Hrest).
    rewrite split_join_lines.
    + apply slice_app_skipn. lia.
    + apply slice_nonempty. lia.
    + apply slice_Forall. assumption.
Qed.

Lemma build_sections_names (lines : list str) (breaks : list (nat * str)) :
  map name (build_sections lines breaks) = map snd breaks.
Proof.
  induction breaks as [|[k nm] rest IH]; simpl; [reflexivity|].
  rewrite IH. reflexivity.
Qed.

(** C2, as the code has it: with headings, the sections reproduce, in order
    and without gap or overlap, the lines from the first heading line to the
    end of the text, one section per heading (the lines before the first
    heading are in no section); without headings there is exactly one
    section, named "Full Text", whose text is the whole input. *)
Theorem detect_sections_partition (raw : str) :
  match section_breaks raw with
  | [] =>
      _detect_sections raw = [mkSection !"Full Text" raw (_split_sentences raw) []]
  | (first, _) :: _ =>
      section_lines (_detect_sections raw) = skipn first (split_lines raw)
      /\ map name (_detect_sections raw) = map snd (section_breaks raw)
  end.
Proof.
  unfold _detect_sections.
  pose proof (find_breaks_between (split_lines raw) 0) as Hb.
  fold (section_breaks raw) in Hb.
  destruct (section_breaks raw) as [|[k nm] rest] eqn:E.
  - rewrite join_split_lines. reflexivity.
  - split.
    + apply build_sections_lines with (lo := 0).
      * apply split_lines_no_newline.
      * exact Hb.
    + apply build_sections_names.
Qed.

(** C2 as stated fails: a line before the first heading is dropped. *)
Lemma detect_sections_drops_preamble :
  section_breaks !"Title line
Abstract
Body text." <> []
  /\ section_lines (_detect_sections !"Title line
Abstract
Body text.")
     = [ !"Abstract"; !"Body text." ]
  /\ split_lines !"Title line
Abstract
Body text." = [ !"Title line"; !"Abstract"; !"Body text." ]
  /\ section_lines (_detect_sections !"Title line
Abstract
Body text.") <> split_lines !"Title line
Abstract
Body text.".
Proof.
  repeat split; try (vm_compute; reflexivity); vm_compute; discriminate.
Qed.

(** ** The matcher *)

Lemma run_Seq_In (r1 r2 : regex) (c c' : cursor) :
  In c' (run (Seq r1 r2) c) <-> exists m, In m (run r1 c) /\ In c' (run r2 m).
Proof. simpl. apply in_flat_map. Qed.

Lemma run_Chr_In (p : ascii -> bool) (c c' : cursor) :
  In c' (run (Chr p) c) <->
  exists x rest, snd c = x :: rest /\ p x = true /\ c' = (Some x, rest).
Proof.
  simpl. destruct (snd c) as [|x rest].
  - split; [intros [] | intros (? & ? & ? & _); discriminate].
  - destruct (p x) eqn:E; split.
    + intros [<-|[]]. exists x, rest. auto.
    + intros (x' & rest' & [= <- <-] & _ & ->). left; reflexivity.
    + intros [].
    + intros (x' & rest' & [= <- <-] & Hp & _). congruence.
Qed.

Lemma run_Look_In (a : option ascii -> option ascii -> bool) (c c' : cursor) :
  In c' (run (Look a) c) <-> c' = c /\ a (fst c) (peek (snd c)) = true.
Proof.
  simpl. destruct (a (fst c) (peek (snd c))); split.
  - intros [<-|[]]. auto.
  - intros [-> _]. left; reflexivity.
  - intros [].
  - intros [_ ?]; discriminate.
Qed.

Lemma run_Opt_In (r : regex) (c c' : cursor) :
  In c' (run (Opt r) c) <-> In c' (run r c) \/ c' = c.
Proof.
  simpl. rewrite in_app_iff. simpl. intuition congruence.
Qed.

Lemma re_match_true (r : regex) (s : str) :
  re_match r s = true <-> exists c', In c' (run r (None, s)).
Proof.
  unfold re_match. destruct (run r (None, s)) as [|c l]; split.
  - discriminate.
  - intros (? & []).
  - intros _. exists c. left; reflexivity.
  - reflexivity.
Qed.

Lemma space_not_word (x : ascii) : is_space x = true -> is_word x = false.
Proof.
  destruct x as [[] [] [] [] [] [] [] []]; vm_compute; congruence.
Qed.

Lemma ci_letter_word (x y : ascii) :
  is_lower y = true ->
  Ascii.eqb (lower_char x) (lower_char y) = true -> is_word x = true.
Proof.
  intros Hy H. apply Ascii.eqb_eq in H.
  assert (Hl : is_lower (lower_char x) = true).
  { rewrite H. clear H x.
    destruct y as [[] [] [] [] [] [] [] []];
      vm_compute in Hy; try discriminate; reflexivity. }
  clear H Hy y. destruct x as [[] [] [] [] [] [] [] []];
    vm_compute in Hl; try discriminate; reflexivity.
Qed.

Lemma literal_ends_in_word (l : list ascii) :
  l <> [] -> forallb is_lower l = true ->
  forall c c', In c' (run (seqs (map ci l)) c) ->
               opt_is is_word (fst c') = true.
Proof.
  induction l as [|y l IH]; intros Hne Hlow c c' H; [contradiction|].
  simpl in Hlow. apply andb_true_iff in Hlow as [Hy Hl].
  destruct l as [|y' l].
  - cbn [map seqs] in H. unfold ci in H.
    apply run_Chr_In in H as (x & rest & _ & Hx & ->).
    simpl. apply (ci_letter_word x y Hy Hx).
  - change (seqs (map ci (y :: y' :: l)))
      with (Seq (ci y) (seqs (map ci (y' :: l)))) in H.
    apply run_Seq_In in H as (m & _ & H).
    apply (IH ltac:(discriminate) Hl m c' H).
Qed.

(** ** C1: the heading "Results and Discussion" *)

(** Whatever the combined pattern matches, the generic pattern, which comes
    before it in [SECTION_PATTERNS], matches too. *)
Lemma results_pattern_shadows (line : str) :
  re_match results_and_discussion_pattern line = true ->
  re_match results_pattern line = true.
Proof.
  rewrite !re_match_true. intros [c' H].
  unfold results_and_discussion_pattern, results_pattern, heading in *.
  cbn [seqs] in *.
  apply run_Seq_In in H as (c1 & H1 & H).
  apply run_Seq_In in H as (c2 & H2 & H).
  apply run_Seq_In in H as (c3 & H3 & _).
  apply run_Seq_In in H3 as (d1 & Hd1 & H3).
  apply run_Seq_In in H3 as (d2 & Hd2 & H3).
  apply run_Seq_In in H3 as (d3 & Hd3 & _).
  exists d2.
  apply run_Seq_In; exists c1; split; [assumption|].
  apply run_Seq_In; exists c2; split; [assumption|].
  apply run_Seq_In; exists d2; split.
  { apply run_Seq_In; exists d1; split; assumption. }
  unfold word_boundary. apply run_Look_In. split; [reflexivity|].
  unfold ws1, Plus in Hd3.
  apply run_Seq_In in Hd3 as (e & He & _).
  apply run_Chr_In in He as (x & rest & Hs & Hsp & _).
  rewrite Hs. cbn [peek opt_is]. rewrite (space_not_word x Hsp).
  rewrite xorb_false_r.
  apply run_Opt_In in Hd2 as [Hd2 | ->].
  - unfold ci in Hd2. apply run_Chr_In in Hd2 as (y & rest' & _ & Hy & ->).
    simpl. apply (ci_letter_word y "s"%char); [reflexivity | assumption].
  - unfold lit in Hd1.
    apply (literal_ends_in_word (s2l "result")) with (c := c2);
      [discriminate | reflexivity | assumption].
Qed.

Lemma Some_str_neq (a b : str) : str_eqb a b = false -> Some a <> Some b.
Proof. intros H [= E]. apply str_eqb_neq in H. contradiction. Qed.

(** C1 fails on the code: the generic pattern "results" stands before the
    combined one in the list, so the line "Results and Discussion" is named
    "Results", and no line is ever named "Results and Discussion". *)
Theorem results_and_discussion_is_shadowed :
  re_match results_pattern !"Results and Discussion" = true
  /\ re_match results_and_discussion_pattern !"Results and Discussion" = true
  /\ first_match SECTION_PATTERNS !"Results and Discussion" = Some !"Results"
  /\ map name (_detect_sections !"Results and Discussion") = [ !"Results" ]
  /\ forall line : str,
       first_match SECTION_PATTERNS line <> Some !"Results and Discussion".
Proof.
  split; [vm_compute; reflexivity|].
  split; [vm_compute; reflexivity|].
  split; [vm_compute; reflexivity|].
  split; [vm_compute; reflexivity|].
  intros line. unfold SECTION_PATTERNS. cbn [first_match].
  fold results_pattern. fold results_and_discussion_pattern.
  repeat match goal with
         | |- (if ?b then _ else _) <> _ =>
             let E := fresh "E" in destruct b eqn:E
         end;
    try (apply Some_str_neq; vm_compute; reflexivity);
    try discriminate.
  apply results_pattern_shadows in E5. congruence.
Qed.

(** ** C8: title estimation *)

Lemma title_loop_candidates (lines acc : list str) :
  length acc < 3 ->
  title_loop lines acc = firstn 3 (acc ++ filter long_line (before_heading lines)).
Proof.
  revert acc; induction lines as [|l rest IH]; intros acc Hacc.
  - cbn [title_loop before_heading filter]. rewrite app_nil_r.
    symmetry. apply firstn_all2. lia.
  - cbn [title_loop before_heading]. destruct (is_heading l).
    + cbn [filter]. rewrite app_nil_r. symmetry. apply firstn_all2. lia.
    + cbn [filter]. unfold long_line at 1.
      destruct (10 <? length l).
      * destruct (3 <=? length (acc ++ [l])) eqn:E.
        -- apply Nat.leb_le in E. rewrite length_app in E. simpl in E.
           replace (acc ++ l :: filter long_line (before_heading rest))
             with ((acc ++ [l]) ++ filter long_line (before_heading rest))
             by (rewrite <- app_assoc; reflexivity).
           assert (Hlen : length (acc ++ [l]) = 3)
             by (rewrite length_app; cbn [length]; lia).
           rewrite firstn_app, Hlen, Nat.sub_diag.
           rewrite firstn_all2 by lia.
           rewrite firstn_0, app_nil_r. reflexivity.
        -- apply Nat.leb_gt in E. rewrite IH by assumption.
           rewrite <- app_assoc. reflexivity.
      * destruct (3 <=? length acc) eqn:E.
        -- apply Nat.leb_le in E. lia.
        -- apply IH. assumption.
Qed.

(** C8, as the code has it: the scan covers the non-empty lines among the
    first 15 lines of the text, stripped; it stops at the first of them that
    matches a heading pattern, keeps at most 3 candidates longer than 10
    characters from the lines before it and returns the first candidate; with
    no candidate it returns the first of the scanned lines, and the sentinel
    when the first 15 lines are all blank. *)
Theorem estimate_title_first_15_lines (raw : str) :
  let lines := stripped_nonempty (firstn 15 (split_lines raw)) in
  let candidates := firstn 3 (filter long_line (before_heading lines)) in
  title_loop lines [] = candidates
  /\ _estimate_title raw =
     match lines with
     | [] => TitleUnknown
     | first :: _ =>
         match candidates with
         | [] => TitleLine first
         | c :: _ => TitleLine c
         end
     end.
Proof.
  intros lines candidates.
  assert (Hloop : title_loop lines [] = candidates).
  { unfold candidates. rewrite title_loop_candidates by (simpl; lia).
    reflexivity. }
  split; [assumption|].
  unfold _estimate_title, title_lines. fold lines. rewrite Hloop.
  reflexivity.
Qed.

(** C8 as stated fails: after 15 blank lines the text still has a non-empty
    line, which the first 15 non-empty lines would include, and the code
    returns the sentinel. *)
Lemma estimate_title_blank_lines_first :
  let raw := repeat NL 15 ++ !"A Study of Peptide Masses" in
  stripped_nonempty (split_lines raw) = [ !"A Study of Peptide Masses" ]
  /\ title_of_first_15_nonempty raw = TitleLine !"A Study of Peptide Masses"
  /\ _estimate_title raw = TitleUnknown
  /\ _estimate_title raw <> title_of_first_15_nonempty raw.
Proof.
  repeat split; try (vm_compute; reflexivity). vm_compute. discriminate.
Qed.

(** ** C6: the tokenizer *)

Lemma take_drop_while (p : ascii -> bool) (s : str) :
  take_while p s ++ drop_while p s = s.
Proof.
  induction s as [|c s IH]; simpl; [reflexivity|].
  destruct (p c); simpl; [rewrite IH|]; reflexivity.
Qed.

Lemma length_take_drop_while (p : ascii -> bool) (s : str) :
  length (take_while p s) + length (drop_while p s) = length s.
Proof. rewrite <- length_app, take_drop_while. reflexivity. Qed.

Lemma firstn_take_while (p : ascii -> bool) (s : str) :
  firstn (length s - length (drop_while p s)) s = take_while p s.
Proof.
  pose proof (length_take_drop_while p s) as H.
  replace (length s - length (drop_while p s)) with (length (take_while p s))
    by lia.
  rewrite <- (take_drop_while p s) at 2.
  rewrite firstn_app, Nat.sub_diag, firstn_all. simpl. apply app_nil_r.
Qed.

Lemma letter_runs_skip (c : ascii) (s : str) :
  is_letter c = false -> letter_runs (c :: s) = letter_runs s.
Proof. intros H. simpl. rewrite H. reflexivity. Qed.

Lemma letter_runs_cons (c : ascii) (s : str) :
  is_letter c = true ->
  letter_runs (c :: s)
  = (c :: take_while is_letter s) :: letter_runs (drop_while is_letter s).
Proof.
  revert c; induction s as [|c' s IH]; intros c Hc.
  - simpl. rewrite Hc. reflexivity.
  - change (letter_runs (c :: c' :: s))
      with (if is_letter c then
              match letter_runs (c' :: s) with
              | r :: rs =>
                  if is_letter c' then (c :: r) :: rs else [c] :: r :: rs
              | [] => [[c]]
              end
            else letter_runs (c' :: s)).
    rewrite Hc. cbn [take_while drop_while].
    destruct (is_letter c') eqn:Hc'.
    + rewrite (IH c' Hc'). reflexivity.
    + destruct (letter_runs (c' :: s)); reflexivity.
Qed.

(** The greedy star of a character class first stops after the longest
    prefix in the class. *)
Lemma star_run_class (p : ascii -> bool) (fuel : nat) :
  forall (s : str) (prev : option ascii),
    length s <= fuel ->
    exists prev' others,
      star_run (run (Chr p)) fuel (prev, s) = (prev', drop_while p s) :: others.
Proof.
  set (step := run (Chr p)).
  induction fuel as [|fuel IH]; intros s prev Hlen.
  - destruct s; [|simpl in Hlen; lia]. exists prev, []. reflexivity.
  - destruct s as [|x rest].
    + exists prev, []. reflexivity.
    + cbn [star_run drop_while].
      change (step (prev, x :: rest))
        with (if p x then [(Some x, rest)] else []).
      destruct (p x) eqn:E.
      * cbn [flat_map snd length]. rewrite app_nil_r.
        assert (Hlt : (length rest <? S (length rest)) = true)
          by (apply Nat.ltb_lt; lia).
        rewrite Hlt.
        destruct (IH rest (Some x)) as (prev' & others & Heq);
          [simpl in Hlen; lia|].
        exists prev', (others ++ [(prev, x :: rest)]).
        rewrite Heq. reflexivity.
      * exists prev, []. reflexivity.
Qed.

Lemma match_here_word (prev : option ascii) (a b : ascii) (rest : str) :
  is_letter a = true -> is_letter b = true ->
  exists prev',
    match_here word_pattern (prev, a :: b :: rest)
    = Some (a :: b :: take_while is_letter rest,
            (prev', drop_while is_letter rest)).
Proof.
  intros Ha Hb. unfold match_here, word_pattern. cbn [seqs].
  change (run (Seq (Chr is_letter) (Seq (Chr is_letter) (Star (Chr is_letter))))
              (prev, a :: b :: rest))
    with (flat_map (run (Seq (Chr is_letter) (Star (Chr is_letter))))
                   (if is_letter a then [(Some a, b :: rest)] else [])).
  rewrite Ha. cbn [flat_map]. rewrite app_nil_r.
  change (run (Seq (Chr is_letter) (Star (Chr is_letter))) (Some a, b :: rest))
    with (flat_map (run (Star (Chr is_letter)))
                   (if is_letter b then [(Some b, rest)] else [])).
  rewrite Hb. cbn [flat_map]. rewrite app_nil_r.
  change (run (Star (Chr is_letter)) (Some b, rest))
    with (star_run (run (Chr is_letter)) (length rest) (Some b, rest)).
  destruct (star_run_class is_letter (length rest) rest (Some b))
    as (prev' & others & Heq); [lia|].
  rewrite Heq. exists prev'. cbn [snd length].
  pose proof (length_take_drop_while is_letter rest) as Hlen.
  destruct (S (S (length rest)) - length (drop_while is_letter rest)) as [|n] eqn:En;
    [lia|].
  cbn [Nat.eqb]. destruct n as [|n]; [lia|].
  cbn [firstn]. replace n with (length rest - length (drop_while is_letter rest))
    by lia.
  rewrite firstn_take_while. reflexivity.
Qed.

Lemma match_here_not_word (prev : option ascii) (s : str) :
  match s with
  | a :: b :: _ => is_letter a && is_letter b = false
  | _ => True
  end ->
  match_here word_pattern (prev, s) = None.
Proof.
  intros H. unfold match_here, word_pattern. cbn [seqs].
  destruct s as [|a [|b rest]]; try reflexivity.
  - simpl. destruct (is_letter a); reflexivity.
  - change (run (Seq (Chr is_letter) (Seq (Chr is_letter) (Star (Chr is_letter))))
                (prev, a :: b :: rest))
      with (flat_map (run (Seq (Chr is_letter) (Star (Chr is_letter))))
                     (if is_letter a then [(Some a, b :: rest)] else [])).
    destruct (is_letter a); [|reflexivity].
    cbn [flat_map]. rewrite app_nil_r.
    change (run (Seq (Chr is_letter) (Star (Chr is_letter))) (Some a, b :: rest))
      with (flat_map (run (Star (Chr is_letter)))
                     (if is_letter b then [(Some b, rest)] else [])).
    simpl in H. rewrite H. reflexivity.
Qed.

Lemma scan_word_pattern (fuel : nat) :
  forall (s acc : str) (prev : option ascii),
    length s < fuel ->
    hits (scan word_pattern fuel acc (prev, s))
    = filter (fun r => 2 <=? length r) (letter_runs s).
Proof.
  induction fuel as [|fuel IH]; intros s acc prev Hlen; [lia|].
  cbn [scan].
  destruct s as [|a rest].
  - rewrite match_here_not_word by exact I. reflexivity.
  - destruct (is_letter a) eqn:Ha.
    + destruct rest as [|b rest].
      * rewrite match_here_not_word by exact I. cbn [snd].
        rewrite IH by (simpl in *; lia).
        simpl. rewrite Ha. reflexivity.
      * destruct (is_letter b) eqn:Hb.
        -- destruct (match_here_word prev a b rest Ha Hb) as (prev' & ->).
           cbn [hits flat_map app].
           change (flat_map _ ?l) with (hits l).
           pose proof (length_take_drop_while is_letter rest) as Hl.
           rewrite IH by (simpl in *; lia).
           rewrite (letter_runs_cons a (b :: rest) Ha).
           cbn [take_while drop_while]. rewrite Hb. reflexivity.
        -- rewrite match_here_not_word
             by (rewrite Ha, Hb; reflexivity).
           cbn [snd]. rewrite IH by (simpl in *; lia).
           rewrite (letter_runs_cons a (b :: rest) Ha).
           cbn [take_while drop_while]. rewrite Hb. reflexivity.
    + rewrite match_here_not_word
        by (destruct rest; [exact I | rewrite Ha; reflexivity]).
      cbn [snd]. rewrite IH by (simpl in *; lia).
      rewrite letter_runs_skip by assumption. reflexivity.
Qed.

Lemma findall_word_pattern (s : str) :
  re_findall word_pattern s = filter (fun r => 2 <=? length r) (letter_runs s).
Proof.
  unfold re_findall, pieces. apply scan_word_pattern. lia.
Qed.

(** C6: the tokens are the maximal runs of two or more ASCII letters of the
    lowercased input, in order, without those that are stopwords; the
    specification's example and the empty string come out as stated. *)
Theorem tokenize_maximal_letter_runs :
  (forall text : str, _tokenize text = tokens_by_runs text)
  /\ _tokenize !"the quick analysis of results"
     = [ !"quick"; !"analysis"; !"results" ]
  /\ _tokenize [] = [].
Proof.
  split; [|split; vm_compute; reflexivity].
  intros text. unfold _tokenize, tokens_by_runs.
  rewrite findall_word_pattern. reflexivity.
Qed.

(** ** Dictionaries and counters *)

Lemma dict_get_incr (w t : str) (d : dict nat) :
  dict_get (incr w d) t
  = if str_eqb w t then Some (S (get_or d t 0)) else dict_get d t.
Proof.
  unfold get_or. induction d as [|[k c] d IH]; simpl.
  - destruct (str_eqb w t); reflexivity.
  - destruct (str_eqb k w) eqn:Ekw; simpl.
    + apply str_eqb_eq in Ekw. subst k.
      destruct (str_eqb w t); reflexivity.
    + destruct (str_eqb k t) eqn:Ekt.
      * apply str_eqb_eq in Ekt. subst k.
        rewrite str_eqb_sym, Ekw. reflexivity.
      * apply IH.
Qed.

Lemma keys_incr_In (w t : str) (d : dict nat) :
  In t (keys (incr w d)) <-> t = w \/ In t (keys d).
Proof.
  unfold keys. induction d as [|[k c] d IH]; simpl.
  - intuition congruence.
  - destruct (str_eqb k w) eqn:E; simpl.
    + apply str_eqb_eq in E. subst. intuition.
    + rewrite IH. intuition.
Qed.

Lemma keys_incr_NoDup (w : str) (d : dict nat) :
  NoDup (keys d) -> NoDup (keys (incr w d)).
Proof.
  unfold keys. induction d as [|[k c] d IH]; simpl; intros H.
  - constructor; [intros [] | constructor].
  - inversion H as [|? ? Hk Hd]; subst.
    destruct (str_eqb k w) eqn:E; simpl.
    + constructor; assumption.
    + constructor; [|apply IH; assumption].
      intros Hin. apply (keys_incr_In w k d) in Hin as [->|Hin].
      * rewrite str_eqb_refl in E. discriminate.
      * contradiction.
Qed.

Lemma fold_incr_keys (ws : list str) (d : dict nat) :
  NoDup (keys d) ->
  NoDup (keys (fold_left (fun c w => incr w c) ws d))
  /\ forall t, In t (keys (fold_left (fun c w => incr w c) ws d))
               <-> In t ws \/ In t (keys d).
Proof.
  revert d; induction ws as [|w ws IH]; intros d Hd; simpl.
  - split; [assumption | intuition].
  - destruct (IH (incr w d) (keys_incr_NoDup w d Hd)) as [Hn Hin].
    split; [assumption|]. intros t. rewrite Hin, keys_incr_In. intuition.
Qed.

Lemma Counter_keys_NoDup (ws : list str) : NoDup (keys (Counter ws)).
Proof. apply (fold_incr_keys ws []). constructor. Qed.

Lemma Counter_keys_In (ws : list str) (t : str) :
  In t (keys (Counter ws)) <-> In t ws.
Proof.
  unfold Counter.
  destruct (fold_incr_keys ws [] (NoDup_nil _)) as [_ H].
  rewrite H. simpl. intuition.
Qed.

Lemma set_of_In (doc : list str) (t : str) : In t (set_of doc) <-> In t doc.
Proof.
  induction doc as [|w doc IH]; simpl; [reflexivity|].
  rewrite filter_In, IH, negb_true_iff, str_eqb_neq.
  destruct (str_eqb w t) eqn:E.
  - apply str_eqb_eq in E. intuition.
  - apply str_eqb_neq in E. intuition.
Qed.

Lemma set_of_NoDup (doc : list str) : NoDup (set_of doc).
Proof.
  induction doc as [|w doc IH]; simpl; constructor.
  - rewrite filter_In, negb_true_iff, str_eqb_neq. intuition.
  - apply NoDup_filter. assumption.
Qed.

(** The number of distinct tokens bounds the number of counter keys. *)
Lemma Counter_keys_length (ws : list str) :
  length (keys (Counter ws)) <= length (set_of ws).
Proof.
  apply NoDup_incl_length; [apply Counter_keys_NoDup|].
  intros t Ht. apply set_of_In. apply Counter_keys_In. assumption.
Qed.

Lemma fold_incr_get (ws : list str) :
  NoDup ws ->
  forall (d : dict nat) (t : str),
    dict_get (fold_left (fun c w => incr w c) ws d) t
    = if mem_str t ws then Some (S (get_or d t 0)) else dict_get d t.
Proof.
  induction ws as [|w ws IH]; intros Hnd d t; [reflexivity|].
  inversion Hnd as [|? ? Hw Hws]; subst.
  cbn [fold_left]. rewrite (IH Hws).
  unfold mem_str. cbn [existsb]. fold (mem_str t ws).
  unfold get_or. rewrite dict_get_incr. rewrite (str_eqb_sym t w).
  destruct (str_eqb w t) eqn:E.
  - apply str_eqb_eq in E. subst t.
    destruct (mem_str w ws) eqn:M; [|reflexivity].
    apply mem_str_In in M. contradiction.
  - simpl. reflexivity.
Qed.

Lemma mem_str_set_of (t : str) (doc : list str) :
  mem_str t (set_of doc) = mem_str t doc.
Proof.
  destruct (mem_str t doc) eqn:E.
  - apply mem_str_In. apply set_of_In. apply mem_str_In. assumption.
  - destruct (mem_str t (set_of doc)) eqn:E'; [|reflexivity].
    apply (proj1 (mem_str_In _ _)) in E'. apply (proj1 (set_of_In _ _)) in E'.
    apply (proj2 (mem_str_In _ _)) in E'. congruence.
Qed.

Lemma count_documents_from (documents : list (list str)) :
  forall (d : dict nat) (t : str),
    dict_get
      (fold_left
         (fun df doc => fold_left (fun df w => incr w df) (set_of doc) df)
         documents d) t
    = if document_frequency t documents =? 0 then dict_get d t
      else Some (get_or d t 0 + document_frequency t documents).
Proof.
  induction documents as [|doc documents IH]; intros d t.
  - simpl. reflexivity.
  - cbn [fold_left]. rewrite IH. unfold get_or.
    rewrite (fold_incr_get _ (set_of_NoDup doc)), mem_str_set_of.
    unfold document_frequency. cbn [filter].
    destruct (mem_str t doc); cbn [length].
    + destruct (length (filter (mem_str t) documents)) as [|n]; simpl.
      * unfold get_or. f_equal. lia.
      * f_equal. unfold get_or. lia.
    + reflexivity.
Qed.

Lemma dict_get_map {V W : Type} (h : V -> W) (d : dict V) (t : str) :
  dict_get (map (fun kv => (fst kv, h (snd kv))) d) t
  = option_map h (dict_get d t).
Proof.
  induction d as [|[k v] d IH]; simpl; [reflexivity|].
  destruct (str_eqb k t); [reflexivity | apply IH].
Qed.

Lemma dict_get_In {V : Type} (d : dict V) (t : str) (v : V) :
  dict_get d t = Some v -> In (t, v) d.
Proof.
  induction d as [|[k v'] d IH]; simpl; [discriminate|].
  destruct (str_eqb k t) eqn:E.
  - apply str_eqb_eq in E. intros [= ->]. left. subst; reflexivity.
  - intros H. right. apply IH. assumption.
Qed.

Lemma for_each_ok {A B : Type} (f : A -> result B) (g : A -> B) (l : list A) :
  (forall a, In a l -> f a = Ok (g a)) -> for_each f l = Ok (map g l).
Proof.
  induction l as [|a l IH]; intros H; simpl; [reflexivity|].
  rewrite (H a) by (left; reflexivity). simpl.
  rewrite IH by (intros; apply H; right; assumption). reflexivity.
Qed.

(** ** Sorting and slicing *)

Section SortingFacts.
Variables (A K : Type) (lt : K -> K -> bool) (key : A -> K).

Lemma insert_sorted_perm (x : A) (l : list A) :
  Permutation (insert_sorted lt key x l) (x :: l).
Proof.
  induction l as [|y l IH]; simpl; [reflexivity|].
  destruct (lt (key x) (key y)); [reflexivity|].
  rewrite IH. apply perm_swap.
Qed.

Lemma sort_by_perm (l : list A) : Permutation (sort_by lt key l) l.
Proof.
  unfold sort_by.
  assert (H : forall acc,
             Permutation (fold_left (fun acc x => insert_sorted lt key x acc) l acc)
                         (acc ++ l)).
  { induction l as [|x l IH]; intros acc; simpl.
    - rewrite app_nil_r. reflexivity.
    - rewrite IH, insert_sorted_perm.
      change (x :: acc) with ([x] ++ acc).
      rewrite (Permutation_app_comm [x] acc), <- app_assoc. reflexivity. }
  apply (H []).
Qed.
End SortingFacts.

Section SortingByIndex.
Variables (A : Type) (key : A -> nat).

Lemma insert_sorted_by_key (x : A) (l : list A) :
  sorted_by_key key l -> sorted_by_key key (insert_sorted Nat.ltb key x l).
Proof.
  unfold sorted_by_key.
  induction l as [|y l IH]; intros H; simpl.
  - constructor; constructor.
  - inversion H as [|? ? Hl Hy]; subst.
    destruct (key x <? key y) eqn:E.
    + apply Nat.ltb_lt in E. constructor; [assumption|].
      constructor; [lia|].
      apply Forall_impl with (P := fun z => key y <= key z);
        [intros; lia | assumption].
    + apply Nat.ltb_ge in E. constructor; [apply IH; assumption|].
      apply Forall_forall. intros z Hz.
      apply (Permutation_in _ (insert_sorted_perm _ _ Nat.ltb key x l)) in Hz.
      destruct Hz as [<-|Hz]; [assumption|].
      rewrite Forall_forall in Hy. apply Hy. assumption.
Qed.

Lemma sort_by_sorted (l : list A) :
  sorted_by_key key (sort_by Nat.ltb key l).
Proof.
  unfold sort_by.
  assert (H : forall acc, sorted_by_key key acc ->
             sorted_by_key key
               (fold_left (fun acc x => insert_sorted Nat.ltb key x acc) l acc)).
  { induction l as [|x l IH]; intros acc Hacc; simpl; [assumption|].
    apply IH. apply insert_sorted_by_key. assumption. }
  apply H. constructor.
Qed.

Lemma sorted_NoDup_strict (l : list A) :
  sorted_by_key key l -> NoDup (map key l) ->
  StronglySorted Nat.lt (map key l).
Proof.
  unfold sorted_by_key. induction l as [|x l IH]; intros Hs Hn; simpl.
  - constructor.
  - inversion Hs as [|? ? Hl Hx]; subst.
    inversion Hn as [|? ? Hnotin Hn']; subst.
    constructor; [apply IH; assumption|].
    apply Forall_forall. intros k Hk.
    apply in_map_iff in Hk as (y & <- & Hy).
    rewrite Forall_forall in Hx. specialize (Hx y Hy).
    assert (key x <> key y).
    { intros E. apply Hnotin. rewrite E. apply in_map. assumption. }
    unfold Nat.lt. lia.
Qed.
End SortingByIndex.

Lemma slice_to_prefix {A : Type} (l : list A) (k : Z) :
  exists n, slice_to l k = firstn n l.
Proof.
  unfold slice_to. destruct (k <? 0)%Z; eexists; reflexivity.
Qed.

Lemma slice_to_length {A : Type} (l : list A) (k : Z) :
  (0 <= k)%Z -> length (slice_to l k) <= Z.to_nat k.
Proof.
  intros Hk. unfold slice_to.
  destruct (k <? 0)%Z eqn:E; [apply Z.ltb_lt in E; lia|].
  apply firstn_le_length.
Qed.

Lemma NoDup_firstn {A : Type} (n : nat) (l : list A) :
  NoDup l -> NoDup (firstn n l).
Proof.
  intros H. rewrite <- (firstn_skipn n l) in H.
  apply NoDup_app_remove_r in H. assumption.
Qed.

(** ** Term statistics and scores *)

Lemma In_enumerate (ss : list str) :
  forall (i j : nat) (s : str),
    In (j, s) (combine (seq i (length ss)) ss)
    <-> i <= j /\ nth_error ss (j - i) = Some s.
Proof.
  induction ss as [|s0 ss IH]; intros i j s; simpl.
  - split; [intros [] | intros [_ H]]. destruct (j - i); discriminate.
  - rewrite IH. split.
    + intros [[= <- <-] | [Hle Hn]].
      * rewrite Nat.sub_diag. split; [lia | reflexivity].
      * split; [lia|]. replace (j - i) with (S (j - S i)) by lia. exact Hn.
    + intros [Hle Hn]. destruct (j - i) as [|n] eqn:E.
      * left. simpl in Hn. injection Hn as <-. f_equal. lia.
      * right. split; [lia|]. replace (j - S i) with n by lia. exact Hn.
Qed.

Lemma enumerate_filter_NoDup (f : nat * str -> bool) (ss : list str) :
  forall i, NoDup (map fst (filter f (combine (seq i (length ss)) ss))).
Proof.
  induction ss as [|s0 ss IH]; intros i; simpl; [constructor|].
  assert (Hrest : ~ In i (map fst (filter f (combine (seq (S i) (length ss)) ss)))).
  { intros H. apply in_map_iff in H as ([j s] & Hj & Hin). simpl in Hj. subst j.
    apply filter_In in Hin as [Hin _]. apply In_enumerate in Hin. lia. }
  destruct (f (i, s0)); simpl; [constructor; [assumption|]|]; apply IH.
Qed.

Section TfIdfFacts.
Context {ops : FloatOps}.

Lemma compute_tf_ok (words : list str) :
  _compute_tf words
  = Ok (map (fun kv => (fst kv, int_div (snd kv) (length words)))
            (Counter words)).
Proof.
  unfold _compute_tf. destruct (length words =? 0) eqn:E.
  - apply Nat.eqb_eq in E. apply length_zero_iff_nil in E. subst.
    reflexivity.
  - unfold dict_comp. apply for_each_ok. intros [w c] _. simpl.
    unfold truediv. rewrite E. reflexivity.
Qed.

Lemma score_loop_ok (idf : dict F) (sentences : list str) :
  forall i, exists scored,
    score_loop i sentences idf = Ok scored
    /\ map (fun x => (index_of x, snd x)) scored
       = filter (fun p => has_tokens (snd p))
                (combine (seq i (length sentences)) sentences).
Proof.
  induction sentences as [|sent rest IH]; intros i.
  - exists []. split; reflexivity.
  - destruct (IH (S i)) as (scored & Hok & Hmap).
    cbn [score_loop length seq combine filter snd]. unfold has_tokens.
    destruct (_tokenize sent) as [|w ws] eqn:Htok.
    + exists scored. split; assumption.
    + rewrite compute_tf_ok. cbn [bind]. rewrite Hok. cbn [bind].
      eexists. split; [reflexivity|].
      cbn [map]. rewrite Hmap. reflexivity.
Qed.

(** [_score_sentences] never raises; it ranks exactly the sentences that
    have a token, each under its index in the section. *)
Lemma score_sentences_ok (idf : dict F) (sentences : list str) :
  exists scored,
    _score_sentences sentences idf = Ok scored
    /\ NoDup (map index_of scored)
    /\ (forall x, In x scored ->
                  nth_error sentences (index_of x) = Some (snd x)
                  /\ has_tokens (snd x) = true)
    /\ (forall i s, nth_error sentences i = Some s ->
                    has_tokens s = true -> In i (map index_of scored)).
Proof.
  destruct (score_loop_ok idf sentences 0) as (scored & Hok & Hmap).
  unfold _score_sentences. rewrite Hok. cbn [bind].
  eexists. split; [reflexivity|].
  set (sorted := sort_by fltb (fun x : scored_sentence => fneg (fst (fst x))) scored).
  assert (Hperm : Permutation sorted scored) by apply sort_by_perm.
  split; [|split].
  - apply (Permutation_NoDup (Permutation_map index_of (Permutation_sym Hperm))).
    replace (map index_of scored)
      with (map fst (map (fun x => (index_of x, snd x)) scored))
      by (rewrite map_map; reflexivity).
    rewrite Hmap. apply enumerate_filter_NoDup.
  - intros x Hx. assert (Hx' := Permutation_in _ Hperm Hx).
    apply (in_map (fun x => (index_of x, snd x))) in Hx'.
    rewrite Hmap in Hx'. apply filter_In in Hx' as [Hin Htok].
    apply In_enumerate in Hin as [_ Hn]. rewrite Nat.sub_0_r in Hn.
    split; assumption.
  - intros i s Hn Htok.
    assert (Hin : In (i, s) (map (fun x => (index_of x, snd x)) scored)).
    { rewrite Hmap. apply filter_In. split; [|assumption].
      apply In_enumerate. rewrite Nat.sub_0_r. split; [lia | assumption]. }
    apply in_map_iff in Hin as (x & [= <- _] & Hx).
    apply in_map. apply (Permutation_in _ (Permutation_sym Hperm)).
    assumption.
Qed.

(** [summarize_section] never raises. *)
Lemma summarize_section_returns
      (section : PaperSection) (idf : dict F) (max_sentences : Z) :
  exists summary, summarize_section section idf max_sentences = Ok summary.
Proof.
  unfold summarize_section.
  destruct (sentences section) as [|s0 ss] eqn:Hs.
  - exists []. reflexivity.
  - rewrite <- Hs.
    destruct (score_sentences_ok idf (sentences section)) as (scored & Hok & _).
    rewrite Hok. cbn [bind]. eexists. reflexivity.
Qed.

(** C4: whatever the section, the IDF mapping and [max_sentences], the
    summary is read off the section's sentences along a strictly increasing
    sequence of positions: the selected sentences come back in the order of
    their original indices. *)
Theorem summary_in_document_order
        (section : PaperSection) (idf : dict F) (max_sentences : Z) :
  exists (summary : list str) (positions : list nat),
    summarize_section section idf max_sentences = Ok summary
    /\ StronglySorted Nat.lt positions
    /\ Forall2 (fun i s => nth_error (sentences section) i = Some s)
               positions summary.
Proof.
  unfold summarize_section.
  destruct (sentences section) as [|s0 ss] eqn:Hs.
  - exists [], []. repeat split; constructor.
  - rewrite <- Hs.
    destruct (score_sentences_ok idf (sentences section))
      as (scored & Hok & Hnd & Hin & _).
    rewrite Hok. cbn [bind].
    set (top := slice_to scored max_sentences).
    set (L := sort_by Nat.ltb (fun x : scored_sentence => snd (fst x)) top).
    exists (map snd L), (map index_of L).
    assert (HL : Permutation L top) by apply sort_by_perm.
    destruct (slice_to_prefix scored max_sentences) as [n Hn].
    fold top in Hn.
    split; [reflexivity|]. split.
    + apply sorted_NoDup_strict; [apply sort_by_sorted|].
      apply (Permutation_NoDup (Permutation_map index_of (Permutation_sym HL))).
      rewrite Hn, <- firstn_map. apply NoDup_firstn. assumption.
    + assert (Hall : Forall (fun x => nth_error (sentences section) (index_of x)
                                      = Some (snd x)) L).
      { apply Forall_forall. intros x Hx. apply Hin.
        apply (Permutation_in _ HL) in Hx. rewrite Hn in Hx.
        apply In_firstn in Hx. assumption. }
      clear - Hall. induction Hall; simpl; constructor; assumption.
Qed.
End TfIdfFacts.

Section EmptyInput.
Context {ops : FloatOps}.

(** C7: empty input raises nothing.  The TF of no tokens and the IDF of no
    documents are empty dictionaries, [_score_sentences] always returns, and
    its ranking holds the position of a sentence exactly when the sentence
    has a token: a sentence without tokens gets no entry, not a zero score. *)
Theorem empty_input_degrades_gracefully :
  _compute_tf [] = Ok []
  /\ _compute_idf [] = Ok []
  /\ (forall (sentences : list str) (idf : dict F),
        exists scored,
          _score_sentences sentences idf = Ok scored
          /\ forall i s, nth_error sentences i = Some s ->
                         (In i (map index_of scored) <-> _tokenize s <> []))
  /\ _tokenize [] = []
  /\ _split_sentences [] = []
  /\ _detect_sections [] = [mkSection !"Full Text" [] [] []]
  /\ forall k : Z, extract_keywords [] k = Ok [].
Proof.
  split; [reflexivity|]. split; [reflexivity|]. split.
  - intros sentences idf.
    destruct (score_sentences_ok idf sentences)
      as (scored & Hok & Hnd & Hin & Hall).
    exists scored. split; [assumption|]. intros i s Hn. split.
    + intros Hi. apply in_map_iff in Hi as (x & <- & Hx).
      destruct (Hin x Hx) as [Hx1 Hx2].
      rewrite Hn in Hx1. injection Hx1 as ->.
      unfold has_tokens in Hx2. destruct (_tokenize (snd x)); discriminate.
    + intros Htok. apply (Hall i s Hn). unfold has_tokens.
      destruct (_tokenize s); [contradiction | reflexivity].
  - split; [reflexivity|]. split; [reflexivity|]. split; [reflexivity|].
    intros k. unfold extract_keywords.
    replace (_split_sentences []) with (@nil (list ascii)) by reflexivity.
    replace (_tokenize []) with (@nil (list ascii)) by reflexivity.
    cbn. unfold slice_to. destruct (k <? 0)%Z; simpl;
      [|rewrite firstn_nil]; reflexivity.
Qed.
End EmptyInput.

(** ** Keywords and the analysis run *)

Lemma detect_sections_unsummarized (raw : str) :
  Forall (fun sec => summary_sentences sec = []) (_detect_sections raw).
Proof.
  unfold _detect_sections. destruct (section_breaks raw) as [|b breaks].
  - repeat constructor.
  - generalize (b :: breaks). intros l.
    induction l as [|[k nm] l IH]; simpl; constructor; [reflexivity | assumption].
Qed.

Lemma for_each_Forall2 {A B : Type} (R : A -> B -> Prop)
      (f : A -> result B) (l : list A) :
  (forall a, In a l -> exists b, f a = Ok b /\ R a b) ->
  exists bs, for_each f l = Ok bs /\ Forall2 R l bs.
Proof.
  induction l as [|a l IH]; intros H.
  - exists []. split; [reflexivity | constructor].
  - destruct (H a (or_introl eq_refl)) as (b & Hb & Hr).
    destruct IH as (bs & Hbs & Hrs); [intros; apply H; right; assumption|].
    exists (b :: bs). simpl. rewrite Hb. simpl. rewrite Hbs. simpl.
    split; [reflexivity | constructor; assumption].
Qed.

Section Totality.
Context {ops : FloatOps}.

(** The quotient of two positive integers is a positive float. *)
Hypothesis int_div_positive :
  forall a b : nat, 0 < a -> 0 < b -> fltb fzero (int_div a b) = true.

Lemma compute_idf_ok (documents : list (list str)) :
  _compute_idf documents
  = Ok (map (fun kv => (fst kv, flog (int_div (length documents) (1 + snd kv))))
            (count_documents documents)).
Proof.
  unfold _compute_idf. destruct (length documents =? 0) eqn:E.
  - apply Nat.eqb_eq in E. apply length_zero_iff_nil in E. subst. reflexivity.
  - apply Nat.eqb_neq in E. unfold dict_comp. apply for_each_ok.
    intros [w c] _. cbn [fst snd]. unfold truediv. cbn [Nat.add Nat.eqb bind].
    unfold math_log. rewrite int_div_positive by lia. reflexivity.
Qed.

Lemma extract_keywords_ok (raw : str) (top_n : Z) :
  exists sorted_words : list (str * F),
    extract_keywords raw top_n = Ok (map fst (slice_to sorted_words top_n))
    /\ Permutation (map fst sorted_words) (keys (Counter (_tokenize raw))).
Proof.
  unfold extract_keywords. rewrite compute_idf_ok. cbn [bind].
  rewrite compute_tf_ok. cbn [bind].
  eexists. split; [reflexivity|].
  rewrite (Permutation_map (@fst (list ascii) F) (sort_by_perm _ _ _ _ _)).
  unfold keys. rewrite !map_map. cbn [fst]. reflexivity.
Qed.

(** C9: for [top_n] not negative there are at most [top_n] keywords, and at
    most as many as the text has distinct tokens. *)
Theorem keyword_count_bound (raw : str) (top_n : Z) :
  (0 <= top_n)%Z ->
  exists kws,
    extract_keywords raw top_n = Ok kws
    /\ length kws <= Z.to_nat top_n
    /\ length kws <= length (set_of (_tokenize raw))
    /\ (top_n = 0%Z -> kws = []).
Proof.
  intros Hk. destruct (extract_keywords_ok raw top_n) as (sw & Hok & Hperm).
  eexists. split; [exact Hok|]. rewrite length_map.
  split; [apply slice_to_length; assumption|]. split.
  - destruct (slice_to_prefix sw top_n) as [n ->].
    rewrite length_firstn.
    apply Nat.le_trans with (length sw); [apply Nat.le_min_r|].
    rewrite <- (length_map fst sw), (Permutation_length Hperm).
    apply Counter_keys_length.
  - intros ->. reflexivity.
Qed.

(** C10: the keywords are pairwise distinct. *)
Theorem keywords_distinct (raw : str) (top_n : Z) :
  exists kws, extract_keywords raw top_n = Ok kws /\ NoDup kws.
Proof.
  destruct (extract_keywords_ok raw top_n) as (sw & Hok & Hperm).
  eexists. split; [exact Hok|].
  destruct (slice_to_prefix sw top_n) as [n ->].
  rewrite <- firstn_map. apply NoDup_firstn.
  apply (Permutation_NoDup (Permutation_sym Hperm)).
  apply Counter_keys_NoDup.
Qed.

Variable extract_text_from_pdf : str -> result (str * nat).

(** C5: an analysis run on a readable PDF returns, its sections are those
    of [_detect_sections] in order, and every section whose name is in
    [SKIP_SECTIONS] has no summary sentences, whatever the two counts. *)
Theorem skip_sections_have_no_summary
        (pdf_path raw : str) (pages : nat)
        (sentences_per_section num_keywords : Z) :
  extract_text_from_pdf pdf_path = Ok (raw, pages) ->
  exists info,
    analyze_paper extract_text_from_pdf pdf_path
                  sentences_per_section num_keywords = Ok info
    /\ map name (sections info) = map name (_detect_sections raw)
    /\ forall sec, In sec (sections info) ->
                   mem_str (name sec) SKIP_SECTIONS = true ->
                   summary_sentences sec = [].
Proof.
  intros Hext. unfold analyze_paper. rewrite Hext. cbn [bind fst snd].
  rewrite compute_idf_ok. cbn [bind].
  set (idf := map _ (count_documents _)).
  destruct (for_each_Forall2
              (fun sec sec' =>
                 name sec' = name sec
                 /\ (mem_str (name sec) SKIP_SECTIONS = true -> sec' = sec))
              (summarize_if_wanted idf sentences_per_section)
              (_detect_sections raw)) as (secs' & Hsecs & Hrel).
  { intros sec _. unfold summarize_if_wanted.
    destruct (mem_str (name sec) SKIP_SECTIONS) eqn:E; cbn [negb].
    - exists sec. auto.
    - destruct (summarize_section_returns sec idf sentences_per_section)
        as (summary & ->).
      cbn [bind]. eexists. split; [reflexivity|].
      split; [reflexivity | discriminate]. }
  rewrite Hsecs. cbn [bind].
  destruct (extract_keywords_ok raw num_keywords) as (sw & -> & _).
  cbn [bind]. eexists. split; [reflexivity|]. cbn [sections].
  pose proof (detect_sections_unsummarized raw) as Hempty.
  split.
  - clear - Hrel. induction Hrel as [|? ? ? ? [Hn _]]; simpl;
      [reflexivity | congruence].
  - intros sec Hin Hskip. clear Hsecs.
    induction Hrel as [|s s' l l' [Hn Hs] Hrel IH]; [contradiction|].
    inversion Hempty as [|? ? He Hempty']; subst.
    destruct Hin as [<-|Hin].
    + rewrite Hn in Hskip. rewrite (Hs Hskip). assumption.
    + apply IH; assumption.
Qed.
End Totality.

(** ** C3: the IDF values, over the real numbers *)

Lemma real_int_div_positive (a b : nat) :
  0 < a -> 0 < b -> Rltb 0 (INR a / INR b) = true.
Proof.
  intros Ha Hb. unfold Rltb.
  destruct (Rlt_dec 0 (INR a / INR b)) as [|Hn]; [reflexivity|].
  exfalso. apply Hn. apply Rdiv_lt_0_compat; apply lt_0_INR; assumption.
Qed.

Lemma document_frequency_le (t : str) (documents : list (list str)) :
  document_frequency t documents <= length documents.
Proof. apply filter_length_le. Qed.

(** C3: for a corpus of N documents, N not zero, the IDF of a term that
    occurs in some document is ln(N / (1 + df)), where df is the number of
    documents containing the term; it is at most 0 for a term of every
    document, and a term of no document has no entry. *)
Theorem idf_values (documents : list (list str)) :
  documents <> [] ->
  exists idf : dict R,
    @_compute_idf real_ops documents = Ok idf
    /\ (forall t, 0 < document_frequency t documents ->
                  dict_get idf t
                  = Some (ln (INR (length documents)
                              / (1 + INR (document_frequency t documents)))))
    /\ (forall t, document_frequency t documents = length documents ->
                  exists v, dict_get idf t = Some v /\ (v <= 0)%R)
    /\ (forall t, document_frequency t documents = 0 ->
                  dict_get idf t = None).
Proof.
  intros Hne.
  assert (Hn : 0 < length documents).
  { destruct documents; [contradiction | simpl; lia]. }
  rewrite (@compute_idf_ok real_ops real_int_div_positive).
  eexists. split; [reflexivity|].
  assert (Hget : forall t,
            dict_get (count_documents documents) t
            = if document_frequency t documents =? 0 then None
              else Some (document_frequency t documents)).
  { intros t. unfold count_documents. rewrite count_documents_from.
    reflexivity. }
  assert (Hval : forall t, 0 < document_frequency t documents ->
            dict_get
              (map (fun kv : list ascii * nat =>
                      (fst kv, @flog real_ops
                                 (@int_div real_ops (length documents) (1 + snd kv))))
                   (count_documents documents)) t
            = Some (ln (INR (length documents)
                        / (1 + INR (document_frequency t documents))))).
  { intros t Ht.
    etransitivity;
      [apply (dict_get_map
                (fun c : nat => ln (INR (length documents) / INR (1 + c))))|].
    rewrite Hget.
    destruct (document_frequency t documents =? 0) eqn:E;
      [apply Nat.eqb_eq in E; lia|].
    cbn [option_map]. rewrite plus_INR. reflexivity. }
  split; [exact Hval|]. split.
  - intros t Ht. eexists. split; [apply Hval; lia|].
    rewrite Ht. rewrite <- ln_1. left. apply ln_increasing.
    + apply Rdiv_lt_0_compat; [apply lt_0_INR; assumption|].
      pose proof (pos_INR (length documents)). lra.
    + apply lt_0_INR in Hn.
      apply Rmult_lt_reg_r with (1 + INR (length documents))%R; [lra|].
      unfold Rdiv. rewrite Rmult_assoc, Rinv_l by lra. lra.
  - intros t Ht.
    etransitivity;
      [apply (dict_get_map
                (fun c : nat => ln (INR (length documents) / INR (1 + c))))|].
    rewrite Hget, Ht. reflexivity.
Qed.

(** The theorem at a corpus of two documents. *)
Lemma idf_values_witness :
  exists idf : dict R,
    @_compute_idf real_ops [[ !"peptide"; !"mass" ]; [ !"peptide" ]] = Ok idf
    /\ dict_get idf !"mass" = Some (ln (INR 2 / (1 + INR 1)))
    /\ (exists v, dict_get idf !"peptide" = Some v /\ (v <= 0)%R)
    /\ dict_get idf !"sequence" = None.
Proof.
  destruct (idf_values [[ !"peptide"; !"mass" ]; [ !"peptide" ]])
    as (idf & Hok & Hval & Hall & Habsent); [discriminate|].
  exists idf. split; [exact Hok|]. split; [|split].
  - apply (Hval !"mass"). vm_compute. lia.
  - apply (Hall !"peptide"). reflexivity.
  - apply (Habsent !"sequence"). reflexivity.
Defined.

(** ** The pipeline on a sample paper *)

Lemma rational_int_div_positive (a b : nat) :
  0 < a -> 0 < b -> Qltb 0%Q (Qmake (Z.of_nat a) (Pos.of_nat b)) = true.
Proof.
  intros Ha _. unfold Qltb. simpl. apply Z.ltb_lt. lia.
Qed.

Example sample_paper_sections :
  map name (_detect_sections sample_paper)
  = [ !"Introduction"; !"Methods"; !"References" ].
Proof. vm_compute. reflexivity. Qed.

Example sample_paper_title :
  _estimate_title sample_paper = TitleLine !"A Study of Peptide Masses".
Proof. vm_compute. reflexivity. Qed.

Example sample_paper_summaries :
  match @analyze_paper rational_ops sample_reader !"paper.pdf" 1 3 with
  | Ok info =>
      map summary_sentences (sections info)
      = [ [ !"The residues carry known masses." ];
          [ !"Water is added once per chain." ];
          [] ]
      /\ keywords info = [ !"residues"; !"study"; !"introduction" ]
  | Raise _ => False
  end.
Proof. vm_compute. split; reflexivity. Qed.

(** The keyword bound on the sample paper, with two keywords asked for. *)
Lemma keyword_count_bound_witness :
  exists kws,
    @extract_keywords rational_ops sample_paper 2 = Ok kws
    /\ length kws <= Z.to_nat 2
    /\ length kws <= length (set_of (_tokenize sample_paper))
    /\ (2%Z = 0%Z -> kws = []).
Proof.
  apply (@keyword_count_bound rational_ops rational_int_div_positive
                              sample_paper 2).
  lia.
Defined.

(** The keywords of the sample paper are distinct. *)
Lemma keywords_distinct_witness :
  exists kws,
    @extract_keywords rational_ops sample_paper 5 = Ok kws /\ NoDup kws.
Proof.
  apply (@keywords_distinct rational_ops rational_int_div_positive
                            sample_paper 5).
Defined.

(** The run on the sample paper leaves its references without summary. *)
Lemma skip_sections_have_no_summary_witness :
  exists info,
    @analyze_paper rational_ops sample_reader !"paper.pdf" 3 10 = Ok info
    /\ map name (sections info) = map name (_detect_sections sample_paper)
    /\ forall sec, In sec (sections info) ->
                   mem_str (name sec) SKIP_SECTIONS = true ->
                   summary_sentences sec = [].
Proof.
  apply (@skip_sections_have_no_summary
           rational_ops rational_int_div_positive sample_reader
           !"paper.pdf" sample_paper 1 3 10).
  reflexivity.
Defined.

(** * Further properties of the code *)

(** ** Stripping *)

Lemma lstrip_idem (s : str) : lstrip (lstrip s) = lstrip s.
Proof.
  induction s as [|c s IH]; simpl; [reflexivity|].
  destruct (is_space c) eqn:E; [assumption|]. simpl. rewrite E. reflexivity.
Qed.

Lemma lstrip_app_nonspace (l : str) (x : ascii) :
  is_space x = false -> lstrip (l ++ [x]) = lstrip l ++ [x].
Proof.
  intros Hx. induction l as [|c l IH]; simpl.
  - rewrite Hx. reflexivity.
  - destruct (is_space c); [assumption | reflexivity].
Qed.

Lemma rstrip_cons_nonspace (x : ascii) (t : str) :
  is_space x = false -> rstrip (x :: t) = x :: rstrip t.
Proof.
  intros Hx. unfold rstrip. simpl rev at 2.
  rewrite lstrip_app_nonspace by assumption.
  rewrite rev_app_distr. reflexivity.
Qed.

Lemma lstrip_head (s : str) :
  match lstrip s with
  | [] => True
  | x :: _ => is_space x = false
  end.
Proof.
  induction s as [|c s IH]; simpl; [exact I|].
  destruct (is_space c) eqn:E; [assumption | simpl; assumption].
Qed.

Lemma rstrip_idem (s : str) : rstrip (rstrip s) = rstrip s.
Proof.
  unfold rstrip. rewrite rev_involutive, lstrip_idem. reflexivity.
Qed.

Lemma strip_idem (s : str) : strip (strip s) = strip s.
Proof.
  unfold strip. pose proof (lstrip_head s) as H.
  destruct (lstrip s) as [|x t]; [reflexivity|].
  rewrite rstrip_cons_nonspace by assumption.
  simpl. rewrite H. rewrite <- rstrip_cons_nonspace by assumption.
  apply rstrip_idem.
Qed.

Lemma lstrip_In (c : ascii) (s : str) : In c (lstrip s) -> In c s.
Proof.
  induction s as [|x s IH]; simpl; [trivial|].
  destruct (is_space x); [intros H; right; apply IH; assumption | trivial].
Qed.

Lemma strip_In (c : ascii) (s : str) : In c (strip s) -> In c s.
Proof.
  unfold strip, rstrip. intros H. apply in_rev in H. apply lstrip_In in H.
  apply in_rev in H. apply lstrip_In in H. assumption.
Qed.

Lemma lstrip_length (s : str) : length (lstrip s) <= length s.
Proof.
  induction s as [|x s IH]; simpl; [lia|].
  destruct (is_space x); simpl; lia.
Qed.

Lemma strip_length (s : str) : length (strip s) <= length s.
Proof.
  unfold strip, rstrip. rewrite length_rev.
  pose proof (lstrip_length (rev (lstrip s))) as H1.
  rewrite length_rev in H1. pose proof (lstrip_length s). lia.
Qed.

(** ** The shape of tokens *)

Lemma letter_runs_chars (s : str) :
  forall r, In r (letter_runs s) ->
            r <> [] /\ Forall (fun c => is_letter c = true /\ In c s) r.
Proof.
  induction s as [|c s IH]; intros r Hr; [contradiction|].
  assert (Hup : forall r', In r' (letter_runs s) ->
                  r' <> [] /\ Forall (fun x => is_letter x = true /\ In x (c :: s)) r').
  { intros r' Hr'. destruct (IH r' Hr') as [Hne Hall]. split; [assumption|].
    apply Forall_impl with (2 := Hall). intros x [Hx Hin]. split; [assumption|].
    right; assumption. }
  cbn [letter_runs] in Hr. destruct (is_letter c) eqn:Hc; [|apply Hup; assumption].
  destruct (letter_runs s) as [|r0 rs] eqn:E.
  - destruct Hr as [<-|[]]. split; [discriminate|].
    constructor; [|constructor]. split; [assumption | left; reflexivity].
  - destruct (opt_is is_letter (peek s)).
    + destruct Hr as [<-|Hr].
      * split; [discriminate|]. constructor.
        -- split; [assumption | left; reflexivity].
        -- apply Hup. left; reflexivity.
      * apply Hup. right; assumption.
    + destruct Hr as [<-|Hr].
      * split; [discriminate|]. constructor; [|constructor].
        split; [assumption | left; reflexivity].
      * apply Hup. assumption.
Qed.

Lemma lower_char_letter (c : ascii) :
  is_letter (lower_char c) = true -> is_lower (lower_char c) = true.
Proof.
  destruct c as [[] [] [] [] [] [] [] []]; vm_compute; congruence.
Qed.

(** Every token is made of two or more lowercase ASCII letters that occur,
    up to case, in the text, and is not a stop word. *)
Theorem tokens_are_lowercase_words (text w : str) :
  In w (_tokenize text) ->
  2 <= length w
  /\ Forall (fun c => is_lower c = true /\ In c (lower text)) w
  /\ mem_str w STOP_WORDS = false.
Proof.
  unfold _tokenize. rewrite findall_word_pattern.
  intros H. apply filter_In in H as [H Hstop].
  apply filter_In in H as [Hrun Hlen].
  apply Nat.leb_le in Hlen. apply negb_true_iff in Hstop.
  split; [assumption|]. split; [|assumption].
  destruct (letter_runs_chars _ _ Hrun) as [_ Hall].
  apply Forall_impl with (2 := Hall). intros c [Hc Hin].
  split; [|assumption].
  unfold lower in Hin. apply in_map_iff in Hin as (c0 & <- & _).
  apply lower_char_letter. assumption.
Qed.

(** The theorem at a token of the specification's example. *)
Lemma tokens_are_lowercase_words_witness :
  2 <= length !"quick"
  /\ Forall (fun c => is_lower c = true
                      /\ In c (lower !"The Quick analysis")) !"quick"
  /\ mem_str !"quick" STOP_WORDS = false.
Proof.
  apply (tokens_are_lowercase_words !"The Quick analysis" !"quick").
  vm_compute. left. reflexivity.
Defined.

(** ** The estimated title *)

Lemma before_heading_In (l : str) (lines : list str) :
  In l (before_heading lines) -> In l lines /\ is_heading l = false.
Proof.
  induction lines as [|x lines IH]; simpl; [intros []|].
  destruct (is_heading x) eqn:E; [intros []|].
  intros [<-|H]; [auto|]. destruct (IH H). auto.
Qed.

Lemma stripped_nonempty_In (t : str) (lines : list str) :
  In t (stripped_nonempty lines) <->
  t <> [] /\ exists l, In l lines /\ t = strip l.
Proof.
  unfold stripped_nonempty. rewrite filter_In, in_map_iff. split.
  - intros [(l & <- & Hl) Hne]. split.
    + destruct (strip l); [discriminate | discriminate].
    + exists l. auto.
  - intros [Hne (l & Hl & ->)]. split; [exists l; auto|].
    destruct (strip l); [contradiction | reflexivity].
Qed.

(** The title is never an empty string: it is the stripped form of a
    non-blank line among the first 15 lines, a line of more than 10
    characters that is no heading unless it is the first non-blank one; the
    sentinel stands for 15 first lines that are all blank. *)
Theorem estimated_title_is_a_line (raw : str) :
  match _estimate_title raw with
  | TitleUnknown =>
      Forall (fun l => strip l = []) (firstn 15 (split_lines raw))
  | TitleLine t =>
      t <> []
      /\ (exists l, In l (firstn 15 (split_lines raw)) /\ t = strip l)
      /\ ((long_line t = true /\ is_heading t = false)
          \/ exists rest, title_lines raw = t :: rest)
  end.
Proof.
  unfold _estimate_title.
  destruct (title_lines raw) as [|first rest] eqn:E.
  - apply Forall_forall. intros l Hl.
    destruct (strip l) as [|c t] eqn:Es; [reflexivity|].
    assert (H : In (c :: t) (title_lines raw)).
    { apply stripped_nonempty_In. split; [discriminate|]. exists l. auto. }
    rewrite E in H. contradiction.
  - rewrite title_loop_candidates by (simpl; lia). cbn [app].
    destruct (firstn 3 (filter long_line (before_heading (first :: rest))))
      as [|c cs] eqn:Ec.
    + assert (H : In first (title_lines raw)) by (rewrite E; left; reflexivity).
      apply stripped_nonempty_In in H as [Hne Hl].
      split; [assumption|]. split; [assumption|]. right. exists rest. reflexivity.
    + assert (Hc : In c (filter long_line (before_heading (first :: rest)))).
      { apply (In_firstn c 3). rewrite Ec. left; reflexivity. }
      apply filter_In in Hc as [Hc Hlong].
      apply before_heading_In in Hc as [Hin Hhead].
      rewrite <- E in Hin. apply stripped_nonempty_In in Hin as [Hne Hl].
      split; [assumption|]. split; [assumption|]. left. auto.
Qed.

(** ** The structure of the detected sections *)

Lemma find_breaks_cons (i : nat) (l : str) (rest : list str) :
  find_breaks i (l :: rest)
  = match line_heading l with
    | Some nm => (i, nm) :: find_breaks (S i) rest
    | None => find_breaks (S i) rest
    end.
Proof.
  cbn [find_breaks]. unfold line_heading.
  destruct (strip l) as [|c t]; reflexivity.
Qed.

Lemma body_of_prefix (lines : list str) :
  firstn (length (body_of lines)) lines = body_of lines.
Proof.
  induction lines as [|l rest IH]; simpl; [reflexivity|].
  destruct (line_heading l); simpl; [reflexivity|]. rewrite IH. reflexivity.
Qed.

Lemma first_break (lines : list str) (i : nat) :
  match find_breaks i lines with
  | (next, _) :: _ =>
      next = i + length (body_of lines) /\ length (body_of lines) < length lines
  | [] => body_of lines = lines
  end.
Proof.
  revert i; induction lines as [|l rest IH]; intros i; [reflexivity|].
  rewrite find_breaks_cons. cbn [body_of].
  destruct (line_heading l) as [nm|].
  - simpl. lia.
  - specialize (IH (S i)). destruct (find_breaks (S i) rest) as [|[next nm] bs].
    + rewrite IH. reflexivity.
    + simpl. lia.
Qed.

Lemma line_heading_name (l nm : str) :
  line_heading l = Some nm -> In nm (map snd SECTION_PATTERNS).
Proof.
  unfold line_heading. destruct (strip l) as [|c t]; [discriminate|].
  generalize (c :: t). intros line.
  induction SECTION_PATTERNS as [|[pat n] pats IH]; simpl; [discriminate|].
  destruct (re_match pat line).
  - intros [= ->]. left; reflexivity.
  - intros H. right. apply IH. assumption.
Qed.

Lemma build_sections_groups (lines pre : list str) :
  Forall no_newline (pre ++ lines) ->
  map (fun sec => (name sec, split_lines (text sec)))
      (build_sections (pre ++ lines) (find_breaks (length pre) lines))
  = heading_groups lines.
Proof.
  revert pre; induction lines as [|l rest IH]; intros pre Hnl; [reflexivity|].
  assert (Hfull : pre ++ l :: rest = (pre ++ [l]) ++ rest)
    by (rewrite <- app_assoc; reflexivity).
  assert (Hlen : S (length pre) = length (pre ++ [l]))
    by (rewrite length_app; simpl; lia).
  assert (IH' : map (fun sec => (name sec, split_lines (text sec)))
                    (build_sections (pre ++ l :: rest)
                                    (find_breaks (S (length pre)) rest))
                = heading_groups rest).
  { rewrite Hfull, Hlen. apply IH. rewrite <- Hfull. assumption. }
  rewrite find_breaks_cons. cbn [heading_groups].
  destruct (line_heading l) as [nm|]; [|exact IH'].
  cbn [build_sections map name text]. rewrite IH'. f_equal. f_equal.
  assert (Hslice :
            slice (pre ++ l :: rest) (length pre)
                  match find_breaks (S (length pre)) rest with
                  | [] => length (pre ++ l :: rest)
                  | (next, _) :: _ => next
                  end
            = l :: body_of rest).
  { pose proof (first_break rest (S (length pre))) as Hb.
    unfold slice.
    destruct (find_breaks (S (length pre)) rest) as [|[next nm'] bs].
    - rewrite firstn_all, skipn_app, Nat.sub_diag, skipn_all. simpl.
      rewrite Hb. reflexivity.
    - destruct Hb as [-> Hlt].
      rewrite firstn_app.
      replace (S (length pre) + length (body_of rest) - length pre)
        with (S (length (body_of rest))) by lia.
      rewrite firstn_all2 by lia. cbn [firstn].
      rewrite body_of_prefix, skipn_app, Nat.sub_diag, skipn_all.
      reflexivity. }
  rewrite Hslice. apply split_join_lines; [discriminate|].
  rewrite <- Hslice. apply slice_Forall. assumption.
Qed.

Lemma body_of_no_heading (lines : list str) :
  Forall (fun l => line_heading l = None) (body_of lines).
Proof.
  induction lines as [|l rest IH]; simpl; [constructor|].
  destruct (line_heading l) eqn:E; constructor; assumption.
Qed.

(** The sections are exactly the heading groups of the text: one section per
    heading line, in order, holding that line and the lines up to the next
    heading; without any heading line there is the one "Full Text" section. *)
Theorem detect_sections_are_heading_groups (raw : str) :
  map (fun sec => (name sec, split_lines (text sec))) (_detect_sections raw)
  = match heading_groups (split_lines raw) with
    | [] => [( !"Full Text", split_lines raw)]
    | g :: gs => g :: gs
    end.
Proof.
  pose proof (build_sections_groups (split_lines raw) []
                                    (split_lines_no_newline raw)) as H.
  cbn [app length] in H. fold (section_breaks raw) in H.
  unfold _detect_sections.
  destruct (section_breaks raw) as [|b bs] eqn:E.
  - cbn [build_sections map] in H. rewrite <- H.
    cbn [map name text]. rewrite join_split_lines. reflexivity.
  - rewrite H. destruct (heading_groups (split_lines raw)) as [|g gs] eqn:Eg;
      [|reflexivity].
    cbn [build_sections] in H. destruct b. discriminate.
Qed.

Lemma heading_groups_sections (lines : list str) :
  forall secs,
    map (fun sec => (name sec, split_lines (text sec))) secs
    = heading_groups lines ->
    Forall (fun sec =>
              In (name sec) (map snd SECTION_PATTERNS)
              /\ exists h body,
                   split_lines (text sec) = h :: body
                   /\ line_heading h = Some (name sec)
                   /\ Forall (fun l => line_heading l = None) body)
           secs.
Proof.
  induction lines as [|l rest IH]; intros secs H.
  - destruct secs; [constructor | discriminate].
  - cbn [heading_groups] in H.
    destruct (line_heading l) as [nm|] eqn:El; [|apply IH; assumption].
    destruct secs as [|sec secs]; [discriminate|].
    cbn [map] in H. injection H as Hn Ht Hrest.
    constructor; [|apply IH; assumption].
    rewrite Hn. split; [apply (line_heading_name l); assumption|].
    exists l, (body_of rest). split; [assumption|].
    split; [assumption | apply body_of_no_heading].
Qed.

(** There is always at least one section; a section other than
    "Full Text" begins with its own heading line, has no other heading line
    in it, and is named by one of the names of [SECTION_PATTERNS]. *)
Theorem sections_start_with_their_heading (raw : str) :
  _detect_sections raw <> []
  /\ Forall (fun sec =>
               (name sec = !"Full Text" /\ text sec = raw
                /\ Forall (fun l => line_heading l = None) (split_lines raw))
               \/ (In (name sec) (map snd SECTION_PATTERNS)
                   /\ exists h body,
                        split_lines (text sec) = h :: body
                        /\ line_heading h = Some (name sec)
                        /\ Forall (fun l => line_heading l = None) body))
            (_detect_sections raw).
Proof.
  pose proof (build_sections_groups (split_lines raw) []
                                    (split_lines_no_newline raw)) as H.
  cbn [app length] in H. fold (section_breaks raw) in H.
  unfold _detect_sections.
  destruct (section_breaks raw) as [|b bs] eqn:E.
  - split; [discriminate|]. constructor; [|constructor]. left.
    cbn [name text]. rewrite join_split_lines.
    split; [reflexivity|]. split; [reflexivity|].
    pose proof (first_break (split_lines raw) 0) as Hb.
    fold (section_breaks raw) in Hb. rewrite E in Hb. rewrite <- Hb.
    apply body_of_no_heading.
  - split.
    + destruct b as [k nm]. discriminate.
    + apply Forall_impl with (2 := heading_groups_sections _ _ H).
      intros sec Hsec. right. exact Hsec.
Qed.

(** ** Letter case and heading detection *)





























(** ** Scanning a text for matches *)

Lemma star_run_suffix (step : cursor -> list cursor) :
  (forall c c', In c' (step c) -> exists m, snd c = m ++ snd c') ->
  forall fuel c c', In c' (star_run step fuel c) -> exists m, snd c = m ++ snd c'.
Proof.
  intros Hstep. induction fuel as [|fuel IH]; intros c c' H.
  - destruct H as [<-|[]]. exists []. reflexivity.
  - cbn [star_run] in H. apply in_app_or in H as [H|[<-|[]]];
      [|exists []; reflexivity].
    apply in_flat_map in H as (d & Hd & H).
    destruct (length (snd d) <? length (snd c)); [|contradiction].
    destruct (Hstep c d Hd) as [m1 E1]. destruct (IH d c' H) as [m2 E2].
    exists (m1 ++ m2). rewrite E1, E2, app_assoc. reflexivity.
Qed.

Lemma run_suffix (r : regex) :
  forall c c', In c' (run r c) -> exists m, snd c = m ++ snd c'.
Proof.
  induction r as [|p|a|r1 IH1 r2 IH2|r1 IH1|r1 IH1]; intros c c' H.
  - destruct H as [<-|[]]. exists []. reflexivity.
  - apply run_Chr_In in H as (x & rest & E & _ & ->). exists [x].
    rewrite E. reflexivity.
  - apply run_Look_In in H as [-> _]. exists []. reflexivity.
  - apply run_Seq_In in H as (d & Hd & H).
    destruct (IH1 c d Hd) as [m1 E1]. destruct (IH2 d c' H) as [m2 E2].
    exists (m1 ++ m2). rewrite E1, E2, app_assoc. reflexivity.
  - apply run_Opt_In in H as [H| ->]; [apply IH1; assumption|].
    exists []. reflexivity.
  - cbn [run] in H. apply (star_run_suffix (run r1) IH1 _ c c' H).
Qed.

Lemma match_here_split (r : regex) (c c' : cursor) (m : str) :
  match_here r c = Some (m, c') -> m <> [] /\ snd c = m ++ snd c'.
Proof.
  unfold match_here. destruct (run r c) as [|d ds] eqn:E; [discriminate|].
  destruct (run_suffix r c d) as [m0 Hm0]; [rewrite E; left; reflexivity|].
  rewrite Hm0, length_app.
  replace (length m0 + length (snd d) - length (snd d)) with (length m0) by lia.
  destruct (length m0 =? 0) eqn:En; [discriminate|].
  intros [= <- <-]. rewrite firstn_app, Nat.sub_diag, firstn_all. simpl.
  rewrite app_nil_r. split; [|reflexivity].
  destruct m0; [discriminate | discriminate].
Qed.

(** The pieces of a scan, put back together, are the text that was
    scanned. *)
Lemma scan_concat (r : regex) (fuel : nat) :
  forall acc c,
    length (snd c) < fuel ->
    flat_map piece_text (scan r fuel acc c) = rev acc ++ snd c.
Proof.
  induction fuel as [|fuel IH]; intros acc c Hlen; [lia|].
  cbn [scan]. destruct (match_here r c) as [[m c']|] eqn:E.
  - apply match_here_split in E as [Hne E].
    cbn [flat_map piece_text]. rewrite IH.
    + rewrite E. reflexivity.
    + rewrite E, length_app in Hlen. destruct m; [contradiction|].
      simpl in Hlen. lia.
  - destruct c as [prev [|x rest]]; cbn [snd].
    + simpl. reflexivity.
    + rewrite IH by (simpl in *; lia). simpl. rewrite <- app_assoc. reflexivity.
Qed.

Lemma pieces_concat (r : regex) (s : str) :
  flat_map piece_text (pieces r s) = s.
Proof. unfold pieces. rewrite scan_concat by (simpl; lia). reflexivity. Qed.

Lemma scan_hits_nonempty (r : regex) (fuel : nat) :
  forall acc c m, In (Hit m) (scan r fuel acc c) -> m <> [].
Proof.
  induction fuel as [|fuel IH]; intros acc c m H.
  - destruct H as [H|[]]. discriminate.
  - cbn [scan] in H. destruct (match_here r c) as [[m' c']|] eqn:E.
    + destruct H as [H|[H|H]]; [discriminate| |apply (IH _ _ _ H)].
      injection H as <-. apply (match_here_split _ _ _ _ E).
    + destruct (snd c) as [|x rest].
      * destruct H as [H|[]]. discriminate.
      * apply (IH _ _ _ H).
Qed.

Lemma pieces_gap_In (r : regex) (s g : str) (x : ascii) :
  In (Gap g) (pieces r s) -> In x g -> In x s.
Proof.
  intros Hg Hx. rewrite <- (pieces_concat r s).
  apply in_flat_map. exists (Gap g). auto.
Qed.

Lemma pieces_gap_length (r : regex) (s g : str) :
  In (Gap g) (pieces r s) -> length g <= length s.
Proof.
  intros Hg. rewrite <- (pieces_concat r s) at 1.
  generalize (pieces r s) Hg. intros ps; induction ps as [|p ps IH];
    [intros []|].
  intros [->|H]; simpl; rewrite length_app; [simpl; lia|].
  specialize (IH H). lia.
Qed.

Lemma re_sub_length (r : regex) (x : ascii) (s : str) :
  length (re_sub r [x] s) <= length s.
Proof.
  unfold re_sub. rewrite <- (pieces_concat r s) at 2.
  assert (H : forall m, In (Hit m) (pieces r s) -> m <> [])
    by (intros m; apply scan_hits_nonempty).
  revert H. generalize (pieces r s). intros ps; induction ps as [|p ps IH];
    intros H; [simpl; lia|].
  cbn [flat_map]. rewrite !length_app.
  assert (IH' := IH (fun m Hm => H m (or_intror Hm))).
  destruct p as [g|m]; cbn [piece_text]; [lia|].
  specialize (H m (or_introl eq_refl)). destruct m; [contradiction|].
  simpl. lia.
Qed.

(** ** The shape of sentences *)

Lemma match_here_class (p : ascii -> bool) (prev : option ascii) (s : str) :
  match s with
  | x :: _ =>
      if p x then match_here (Plus (Chr p)) (prev, s) <> None
      else match_here (Plus (Chr p)) (prev, s) = None
  | [] => match_here (Plus (Chr p)) (prev, s) = None
  end.
Proof.
  unfold match_here, Plus. destruct s as [|x rest]; [reflexivity|].
  change (run (Seq (Chr p) (Star (Chr p))) (prev, x :: rest))
    with (flat_map (run (Star (Chr p)))
                   (if p x then [(Some x, rest)] else [])).
  destruct (p x); [|reflexivity].
  cbn [flat_map]. rewrite app_nil_r.
  change (run (Star (Chr p)) (Some x, rest))
    with (star_run (run (Chr p)) (length rest) (Some x, rest)).
  destruct (star_run_class p (length rest) rest (Some x))
    as (prev' & others & ->); [lia|].
  cbn [snd length]. pose proof (length_take_drop_while p rest).
  destruct (S (length rest) - length (drop_while p rest)) as [|n] eqn:E; [lia|].
  discriminate.
Qed.

Lemma scan_class_gaps (p : ascii -> bool) (fuel : nat) :
  forall acc c g,
    Forall (fun x => p x = false) acc ->
    In (Gap g) (scan (Plus (Chr p)) fuel acc c) ->
    Forall (fun x => p x = false) g.
Proof.
  induction fuel as [|fuel IH]; intros acc c g Hacc H.
  - destruct H as [[= <-]|[]]. apply Forall_rev. assumption.
  - cbn [scan] in H. destruct c as [prev s].
    pose proof (match_here_class p prev s) as Hm.
    destruct (match_here (Plus (Chr p)) (prev, s)) as [[m c']|].
    + destruct H as [[= <-]|[H|H]]; [apply Forall_rev; assumption|discriminate|].
      apply (IH [] c' g); [constructor | assumption].
    + cbn [snd] in H. destruct s as [|x rest].
      * destruct H as [[= <-]|[]]. apply Forall_rev. assumption.
      * destruct (p x) eqn:E; [contradiction|].
        apply (IH (x :: acc) (Some x, rest) g); [|assumption].
        constructor; assumption.
Qed.

Lemma re_sub_class_chars (p : ascii -> bool) (y : ascii) (s : str) :
  Forall (fun x => p x = true -> x = y) (re_sub (Plus (Chr p)) [y] s).
Proof.
  unfold re_sub. apply Forall_forall. intros x Hx.
  apply in_flat_map in Hx as (pc & Hpc & Hx). destruct pc as [g|m].
  - pose proof (scan_class_gaps p _ [] (None, s) g (Forall_nil _) Hpc) as Hg.
    rewrite Forall_forall in Hg. intros Hp. rewrite (Hg x Hx) in Hp.
    discriminate.
  - destruct Hx as [<-|[]]. auto.
Qed.

(** Every sentence has more than 10 characters, is stripped, holds no white
    space other than the space character (no newline in particular), and is
    not longer than the text it comes from. *)
Theorem sentences_are_trimmed (text s : str) :
  In s (_split_sentences text) ->
  10 < length s
  /\ strip s = s
  /\ Forall (fun c => is_space c = true -> c = SP) s
  /\ ~ In NL s
  /\ length s <= length text.
Proof.
  unfold _split_sentences. intros H.
  apply in_map_iff in H as (g & <- & Hg).
  apply filter_In in Hg as [Hg Hlen]. apply Nat.ltb_lt in Hlen.
  set (t1 := re_sub (Plus (chr NL)) [SP] text) in *.
  set (t2 := re_sub (Plus (Chr is_space)) [SP] t1) in *.
  assert (Hgap : In (Gap g) (pieces sentence_boundary (strip t2))).
  { unfold re_split in Hg. apply in_flat_map in Hg as (pc & Hpc & Hin).
    destruct pc as [g'|m]; [|contradiction].
    destruct Hin as [<-|[]]. assumption. }
  assert (Hchars : Forall (fun c => is_space c = true -> c = SP) (strip g)).
  { apply Forall_forall. intros c Hc.
    apply strip_In in Hc.
    apply (pieces_gap_In _ _ _ _ Hgap) in Hc. apply strip_In in Hc.
    pose proof (re_sub_class_chars is_space SP t1) as Ht2.
    rewrite Forall_forall in Ht2. apply Ht2. assumption. }
  split; [assumption|]. split; [apply strip_idem|].
  split; [assumption|]. split.
  - intros Hnl. rewrite Forall_forall in Hchars.
    specialize (Hchars NL Hnl eq_refl). discriminate.
  - pose proof (strip_length g). pose proof (pieces_gap_length _ _ _ Hgap).
    pose proof (strip_length t2).
    pose proof (re_sub_length (Plus (Chr is_space)) SP t1).
    pose proof (re_sub_length (Plus (chr NL)) SP text).
    fold t1 in H3. fold t2 in H2. fold t1 in H2. lia.
Qed.

(** ** Counters and term frequencies *)

Lemma keys_incr (w : str) (d : dict nat) :
  keys (incr w d) = if mem_str w (keys d) then keys d else keys d ++ [w].
Proof.
  unfold keys, mem_str. induction d as [|[k c] d IH]; [reflexivity|].
  cbn [incr map fst existsb]. rewrite (str_eqb_sym w k).
  destruct (str_eqb k w); [reflexivity|].
  cbn [map fst orb]. rewrite IH.
  destruct (existsb (str_eqb w) (map fst d)); reflexivity.
Qed.

Lemma filter_filter {A : Type} (f g : A -> bool) (l : list A) :
  filter f (filter g l) = filter (fun x => g x && f x) l.
Proof.
  induction l as [|x l IH]; simpl; [reflexivity|].
  destruct (g x); simpl; [destruct (f x)|]; rewrite IH; reflexivity.
Qed.

Lemma mem_str_app (w : str) (l1 l2 : list str) :
  mem_str w (l1 ++ l2) = mem_str w l1 || mem_str w l2.
Proof. unfold mem_str. apply existsb_app. Qed.

Lemma fold_incr_keys_order (ws : list str) :
  forall d : dict nat,
    keys (fold_left (fun c w => incr w c) ws d)
    = keys d ++ filter (fun w => negb (mem_str w (keys d))) (set_of ws).
Proof.
  induction ws as [|w ws IH]; intros d.
  - simpl. rewrite app_nil_r. reflexivity.
  - cbn [fold_left set_of filter]. rewrite IH, keys_incr.
    destruct (mem_str w (keys d)) eqn:E; cbn [negb].
    + f_equal. rewrite filter_filter. apply filter_ext_in. intros t _.
      destruct (str_eqb w t) eqn:Ewt; [|reflexivity].
      apply str_eqb_eq in Ewt. subst t. rewrite E. reflexivity.
    + rewrite <- app_assoc. cbn [app]. f_equal. f_equal.
      rewrite filter_filter. apply filter_ext. intros t.
      rewrite mem_str_app. unfold mem_str at 2. cbn [existsb].
      rewrite orb_false_r, (str_eqb_sym t w), negb_orb. apply andb_comm.
Qed.

(** The keys of a counter are the distinct words in the order of their
    first occurrence. *)
Lemma Counter_keys (ws : list str) : keys (Counter ws) = set_of ws.
Proof.
  unfold Counter. rewrite fold_incr_keys_order. cbn [keys map app].
  rewrite <- (filter_ext (fun _ => true)) by reflexivity.
  induction (set_of ws) as [|x l IH]; simpl; [|rewrite IH]; reflexivity.
Qed.

Lemma fold_incr_count (ws : list str) :
  forall (d : dict nat) (t : str),
    dict_get (fold_left (fun c w => incr w c) ws d) t
    = if count_str t ws =? 0 then dict_get d t
      else Some (get_or d t 0 + count_str t ws).
Proof.
  unfold count_str.
  induction ws as [|w ws IH]; intros d t; [reflexivity|].
  cbn [fold_left filter]. rewrite IH. unfold get_or.
  rewrite dict_get_incr, (str_eqb_sym t w).
  destruct (str_eqb w t); cbn [length].
  - destruct (length (filter (str_eqb t) ws)) as [|n]; simpl.
    + unfold get_or. f_equal. lia.
    + unfold get_or. f_equal. lia.
  - reflexivity.
Qed.

Lemma count_str_In (t : str) (ws : list str) :
  count_str t ws <> 0 <-> In t ws.
Proof.
  unfold count_str. split.
  - intros H. destruct (filter (str_eqb t) ws) as [|x l] eqn:E;
      [contradiction|].
    assert (Hx : In x (filter (str_eqb t) ws)) by (rewrite E; left; reflexivity).
    apply filter_In in Hx as [Hx Ex]. apply str_eqb_eq in Ex. subst. assumption.
  - intros H E. apply length_zero_iff_nil in E.
    assert (Hx : In t (filter (str_eqb t) ws))
      by (apply filter_In; split; [assumption | apply str_eqb_refl]).
    rewrite E in Hx. contradiction.
Qed.

(** A counter holds, for each word of the list, its number of occurrences,
    and nothing for any other word. *)
Lemma Counter_get (ws : list str) (t : str) :
  dict_get (Counter ws) t
  = if count_str t ws =? 0 then None else Some (count_str t ws).
Proof. unfold Counter. rewrite fold_incr_count. reflexivity. Qed.

Section TermFrequency.
Context {ops : FloatOps}.

(** TF: the terms are the distinct tokens in the order of their first
    occurrence, and the frequency of a term is the number of its occurrences
    over the number of tokens; other words have no frequency. *)
Theorem tf_is_count_over_length (words : list str) :
  exists tf,
    _compute_tf words = Ok tf
    /\ keys tf = set_of words
    /\ forall t,
         dict_get tf t
         = if count_str t words =? 0 then None
           else Some (int_div (count_str t words) (length words)).
Proof.
  rewrite compute_tf_ok. eexists. split; [reflexivity|]. split.
  - unfold keys. rewrite map_map. cbn [fst]. apply Counter_keys.
  - intros t.
    etransitivity;
      [apply (dict_get_map (fun c => int_div c (length words)))|].
    rewrite Counter_get. destruct (count_str t words =? 0); reflexivity.
Qed.
End TermFrequency.

(** ** Term statistics over the real numbers *)






Lemma real_idf_lookup (documents : list (list str)) :
  documents <> [] ->
  exists idf : dict R,
    @_compute_idf real_ops documents = Ok idf
    /\ forall t,
         dict_get idf t
         = if document_frequency t documents =? 0 then None
           else Some (ln (INR (length documents)
                          / INR (1 + document_frequency t documents))).
Proof.
  intros _. rewrite (@compute_idf_ok real_ops real_int_div_positive).
  eexists. split; [reflexivity|]. intros u.
  etransitivity;
    [apply (dict_get_map
              (fun c : nat => ln (INR (length documents) / INR (1 + c))))|].
  unfold count_documents. rewrite count_documents_from. cbn [dict_get].
  destruct (document_frequency u documents =? 0); reflexivity.
Qed.

Lemma ln_quotient_lt (n a b : nat) :
  0 < n -> a < b ->
  (ln (INR n / INR (1 + b)) < ln (INR n / INR (1 + a)))%R.
Proof.
  intros Hn Hab.
  assert (Hn' : (0 < INR n)%R) by (apply lt_0_INR; assumption).
  assert (Ha : (0 < INR (1 + a))%R) by (apply lt_0_INR; lia).
  assert (Hb : (0 < INR (1 + b))%R) by (apply lt_0_INR; lia).
  apply ln_increasing.
  - apply Rdiv_lt_0_compat; assumption.
  - unfold Rdiv. apply Rmult_lt_compat_l; [assumption|].
    apply Rinv_lt_contravar; [apply Rmult_lt_0_compat; assumption|].
    apply lt_INR. lia.
Qed.

(** Over the real numbers the IDF falls strictly as the document frequency
    grows; it is positive for a term missing from two documents or more,
    exactly 0 for a term missing from one document only, and negative for a
    term of every document. *)
Theorem idf_sign_and_order (documents : list (list str)) :
  documents <> [] ->
  exists idf : dict R,
    @_compute_idf real_ops documents = Ok idf
    /\ (forall t v, dict_get idf t = Some v ->
          (1 + document_frequency t documents < length documents -> (0 < v)%R)
          /\ (1 + document_frequency t documents = length documents -> v = 0%R)
          /\ (document_frequency t documents = length documents -> (v < 0)%R))
    /\ (forall t1 t2 v1 v2,
          dict_get idf t1 = Some v1 -> dict_get idf t2 = Some v2 ->
          document_frequency t1 documents < document_frequency t2 documents ->
          (v2 < v1)%R).
Proof.
  intros Hne.
  assert (Hn : 0 < length documents).
  { destruct documents; [contradiction | simpl; lia]. }
  destruct (real_idf_lookup documents Hne) as (idf & Hok & Hget).
  exists idf. split; [assumption|]. split.
  - intros t v Hv. rewrite Hget in Hv.
    destruct (document_frequency t documents =? 0) eqn:E; [discriminate|].
    injection Hv as <-.
    assert (Hone : ln (INR (length documents) / INR (1 + (length documents - 1)))
                   = 0%R).
    { replace (1 + (length documents - 1)) with (length documents) by lia.
      unfold Rdiv. rewrite Rinv_r; [apply ln_1|].
      apply not_0_INR. lia. }
    split; [|split].
    + intros Hlt. rewrite <- Hone. apply ln_quotient_lt; lia.
    + intros Heq. rewrite <- Hone.
      replace (length documents - 1) with (document_frequency t documents)
        by lia.
      reflexivity.
    + intros Heq. rewrite <- Hone. rewrite Heq. apply ln_quotient_lt; lia.
  - intros t1 t2 v1 v2 H1 H2 Hlt. rewrite Hget in H1, H2.
    destruct (document_frequency t1 documents =? 0); [discriminate|].
    destruct (document_frequency t2 documents =? 0); [discriminate|].
    injection H1 as <-. injection H2 as <-.
    apply ln_quotient_lt; assumption.
Qed.

(** The theorem at a corpus of three documents. *)
Lemma idf_sign_and_order_witness :
  exists idf : dict R,
    @_compute_idf real_ops
       [[ !"peptide"; !"mass" ]; [ !"peptide" ]; [ !"peptide"; !"chain" ]]
    = Ok idf
    /\ (forall v, dict_get idf !"mass" = Some v -> (0 < v)%R)
    /\ (forall v, dict_get idf !"peptide" = Some v -> (v < 0)%R).
Proof.
  destruct (idf_sign_and_order
              [[ !"peptide"; !"mass" ]; [ !"peptide" ]; [ !"peptide"; !"chain" ]])
    as (idf & Hok & Hsign & _); [discriminate|].
  exists idf. split; [exact Hok|]. split.
  - intros v Hv. apply (Hsign _ _ Hv). vm_compute. lia.
  - intros v Hv. apply (Hsign _ _ Hv). reflexivity.
Defined.

(** ** Stable sorting *)

Section StableSort.
Variables (A K : Type) (lt : K -> K -> bool) (key : A -> K).
Variable before : A -> A -> Prop.

Hypothesis lt_asym : forall a b, lt a b = true -> lt b a = false.
Hypothesis le_trans :
  forall a b c, lt b a = false -> lt c b = false -> lt c a = false.

Lemma insert_sorted_ranked (x : A) (acc : list A) :
  StronglySorted (ranked lt key before) acc ->
  Forall (fun a => before a x) acc ->
  StronglySorted (ranked lt key before) (insert_sorted lt key x acc).
Proof.
  induction acc as [|y acc IH]; intros Hs Hb; cbn [insert_sorted].
  - constructor; constructor.
  - inversion Hs as [|? ? Hacc Hy]; subst.
    inversion Hb as [|? ? Hyx Hb']; subst.
    destruct (lt (key x) (key y)) eqn:E.
    + constructor; [assumption|].
      assert (Hxy : ranked lt key before x y).
      { split; [apply lt_asym; assumption | rewrite E; discriminate]. }
      constructor; [assumption|].
      apply Forall_forall. intros z Hz. rewrite Forall_forall in Hy.
      destruct (Hy z Hz) as [Hzy _].
      assert (Hxz : lt (key x) (key z) = true).
      { destruct (lt (key x) (key z)) eqn:Exz; [reflexivity|].
        rewrite (le_trans (key y) (key z) (key x) Hzy Exz) in E. discriminate. }
      split; [apply lt_asym; assumption | rewrite Hxz; discriminate].
    + constructor; [apply IH; assumption|].
      apply Forall_forall. intros z Hz.
      apply (Permutation_in _ (insert_sorted_perm _ _ lt key x acc)) in Hz.
      destruct Hz as [<-|Hz].
      * split; [assumption | intros _; assumption].
      * rewrite Forall_forall in Hy. apply Hy. assumption.
Qed.

Lemma sort_by_ranked (l : list A) :
  StronglySorted before l ->
  StronglySorted (ranked lt key before) (sort_by lt key l).
Proof.
  unfold sort_by.
  assert (H : forall acc,
             StronglySorted (ranked lt key before) acc ->
             (forall a x, In a acc -> In x l -> before a x) ->
             StronglySorted before l ->
             StronglySorted (ranked lt key before)
               (fold_left (fun acc x => insert_sorted lt key x acc) l acc)).
  { induction l as [|x l IH]; intros acc Hacc Hb Hl; [assumption|].
    inversion Hl as [|? ? Hl' Hx]; subst. cbn [fold_left]. apply IH.
    - apply insert_sorted_ranked; [assumption|].
      apply Forall_forall. intros a Ha. apply Hb; [assumption | left; reflexivity].
    - intros a y Ha Hy.
      apply (Permutation_in _ (insert_sorted_perm _ _ lt key x acc)) in Ha.
      destruct Ha as [<-|Ha].
      + rewrite Forall_forall in Hx. apply Hx. assumption.
      + apply Hb; [assumption | right; assumption].
    - assumption. }
  intros Hl. apply H; [constructor | intros a x [] | assumption].
Qed.
End StableSort.

Lemma StronglySorted_app_inv {A : Type} (R : A -> A -> Prop) (l1 l2 : list A) :
  StronglySorted R (l1 ++ l2) ->
  forall x y, In x l1 -> In y l2 -> R x y.
Proof.
  induction l1 as [|a l1 IH]; intros H x y Hx Hy; [contradiction|].
  inversion H as [|? ? Hs Ha]; subst. destruct Hx as [<-|Hx].
  - rewrite Forall_forall in Ha. apply Ha. apply in_or_app. right; assumption.
  - apply IH; assumption.
Qed.

Lemma StronglySorted_map {A B : Type} (f : A -> B) (R : B -> B -> Prop)
      (l : list A) :
  StronglySorted R (map f l) <-> StronglySorted (fun x y => R (f x) (f y)) l.
Proof.
  induction l as [|a l IH]; simpl; split; intros H; try constructor;
    inversion H as [|? ? Hs Ha]; subst.
  - apply IH; assumption.
  - rewrite Forall_map in Ha. assumption.
  - apply IH; assumption.
  - rewrite Forall_map. assumption.
Qed.

Lemma StronglySorted_impl_In {A : Type} (R R' : A -> A -> Prop) (l : list A) :
  (forall x y, In x l -> In y l -> R x y -> R' x y) ->
  StronglySorted R l -> StronglySorted R' l.
Proof.
  induction l as [|a l IH]; intros Himp H; [constructor|].
  inversion H as [|? ? Hs Ha]; subst. constructor.
  - apply IH; [|assumption]. intros x y Hx Hy. apply Himp; right; assumption.
  - apply Forall_forall. intros y Hy. rewrite Forall_forall in Ha.
    apply Himp; [left; reflexivity | right; assumption | apply Ha; assumption].
Qed.

Lemma StronglySorted_filter {A : Type} (R : A -> A -> Prop) (f : A -> bool)
      (l : list A) :
  StronglySorted R l -> StronglySorted R (filter f l).
Proof.
  induction l as [|a l IH]; intros H; [constructor|].
  inversion H as [|? ? Hs Ha]; subst. simpl.
  destruct (f a); [|apply IH; assumption].
  constructor; [apply IH; assumption|].
  apply Forall_forall. intros y Hy. apply filter_In in Hy as [Hy _].
  rewrite Forall_forall in Ha. apply Ha. assumption.
Qed.

Lemma enumerate_filter_sorted (f : nat * list ascii -> bool) (ss : list str) :
  forall i,
    StronglySorted Nat.lt (map fst (filter f (combine (seq i (length ss)) ss))).
Proof.
  induction ss as [|s0 ss IH]; intros i; simpl; [constructor|].
  assert (Hrest : Forall (Nat.lt i)
                    (map fst (filter f (combine (seq (S i) (length ss)) ss)))).
  { apply Forall_forall. intros j Hj.
    apply in_map_iff in Hj as ([j' s] & Hj' & Hin). simpl in Hj'. subst j'.
    apply filter_In in Hin as [Hin _]. apply In_enumerate in Hin.
    unfold Nat.lt. lia. }
  destruct (f (i, s0)); simpl; [constructor; [apply IH | assumption] | apply IH].
Qed.

(** Strictly sorted lists with the same elements are the same list. *)
Lemma sorted_perm_unique {A : Type} (key : A -> nat) (l1 : list A) :
  forall l2,
    Permutation l1 l2 ->
    StronglySorted (fun x y => key x < key y) l1 ->
    StronglySorted (fun x y => key x < key y) l2 ->
    l1 = l2.
Proof.
  induction l1 as [|a l1 IH]; intros l2 Hp H1 H2.
  - apply Permutation_nil in Hp. subst. reflexivity.
  - destruct l2 as [|b l2];
      [apply Permutation_sym, Permutation_nil in Hp; discriminate|].
    inversion H1 as [|? ? Hs1 Ha]; subst. inversion H2 as [|? ? Hs2 Hb]; subst.
    rewrite Forall_forall in Ha, Hb.
    assert (Hab : a = b).
    { assert (Ha2 : In a (b :: l2))
        by (apply (Permutation_in _ Hp); left; reflexivity).
      assert (Hb1 : In b (a :: l1))
        by (apply (Permutation_in _ (Permutation_sym Hp)); left; reflexivity).
      destruct Ha2 as [->|Ha2]; [reflexivity|].
      destruct Hb1 as [->|Hb1]; [reflexivity|].
      specialize (Ha b Hb1). specialize (Hb a Ha2). lia. }
    subst b. f_equal. apply IH; [|assumption|assumption].
    apply (Permutation_cons_inv Hp).
Qed.

(** ** The ranking of sentences *)

Section Ranking.
Context {ops : FloatOps}.

(** [<] on floats that are numbers is a strict order whose complement is
    transitive, and negation turns it round. *)
Hypothesis fltb_asym : forall a b : F, fltb a b = true -> fltb b a = false.
Hypothesis fltb_le_trans :
  forall a b c : F, fltb b a = false -> fltb c b = false -> fltb c a = false.
Hypothesis fneg_order : forall a b : F, fltb (fneg a) (fneg b) = fltb b a.

Lemma score_loop_scores (idf : dict F) (sentences : list str) :
  forall i scored,
    score_loop i sentences idf = Ok scored ->
    Forall (fun x => fst (fst x) = sentence_score idf (snd x)) scored.
Proof.
  induction sentences as [|sent rest IH]; intros i scored H.
  - injection H as <-. constructor.
  - cbn [score_loop] in H.
    destruct (_tokenize sent) as [|w ws] eqn:Htok; [apply (IH _ _ H)|].
    rewrite compute_tf_ok in H. cbn [bind] in H.
    destruct (score_loop (S i) rest idf) as [tail|e] eqn:Hrest;
      [|discriminate].
    cbn [bind] in H. injection H as <-. constructor; [|apply (IH _ _ Hrest)].
    cbn [fst snd]. unfold sentence_score. rewrite Htok, compute_tf_ok.
    reflexivity.
Qed.

(** The ranking before it is cut: the sort of the scored sentences, their
    scores, their positions, and the order they stand in. *)
Lemma ranking_facts (idf : dict F) (sentences : list str) :
  exists scored,
    _score_sentences sentences idf = Ok scored
    /\ StronglySorted
         (ranked fltb (fun x : scored_sentence => fneg (fst (fst x)))
                 (fun x y => index_of x < index_of y))
         scored
    /\ Forall (fun x => fst (fst x) = sentence_score idf (snd x)) scored
    /\ NoDup (map index_of scored)
    /\ (forall x, In x scored ->
                  nth_error sentences (index_of x) = Some (snd x)
                  /\ has_tokens (snd x) = true)
    /\ (forall i s, nth_error sentences i = Some s ->
                    has_tokens s = true -> In i (map index_of scored)).
Proof.
  destruct (score_sentences_ok idf sentences)
    as (scored & Hok & Hnd & Hin & Hall).
  exists scored. split; [assumption|].
  split; [|split; [|split; [assumption | split; assumption]]].
  - destruct (score_loop_ok idf sentences 0) as (scored0 & Hloop & Hmap).
    unfold _score_sentences in Hok. rewrite Hloop in Hok. cbn [bind] in Hok.
    injection Hok as <-.
    apply sort_by_ranked; [assumption | assumption|].
    apply (StronglySorted_map index_of Nat.lt).
    replace (map index_of scored0)
      with (map fst (map (fun x => (index_of x, snd x)) scored0))
      by (rewrite map_map; reflexivity).
    rewrite Hmap. apply enumerate_filter_sorted.
  - destruct (score_loop_ok idf sentences 0) as (scored0 & Hloop & Hmap).
    unfold _score_sentences in Hok. rewrite Hloop in Hok. cbn [bind] in Hok.
    injection Hok as <-.
    apply Forall_forall. intros x Hx.
    apply (Permutation_in _ (sort_by_perm _ _ _ _ scored0)) in Hx.
    pose proof (score_loop_scores idf sentences 0 scored0 Hloop) as Hs.
    rewrite Forall_forall in Hs. apply Hs. assumption.
Qed.

(** The ranking is in descending order of score, and sentences of equal
    score stand in the order of the text; each score is the TF-IDF sum of
    the sentence. *)
Theorem ranking_is_by_score_then_position
        (idf : dict F) (sentences : list str) :
  exists scored,
    _score_sentences sentences idf = Ok scored
    /\ StronglySorted
         (fun x y =>
            fltb (fst (fst x)) (fst (fst y)) = false
            /\ (fltb (fst (fst y)) (fst (fst x)) = false ->
                index_of x < index_of y))
         scored
    /\ Forall (fun x => fst (fst x) = sentence_score idf (snd x)) scored.
Proof.
  destruct (ranking_facts idf sentences) as (scored & Hok & Hs & Hsc & _).
  exists scored. split; [assumption|]. split; [|assumption].
  apply StronglySorted_impl_In with (2 := Hs).
  intros x y _ _ [H1 H2]. cbn beta in H1, H2. rewrite fneg_order in H1, H2.
  split; assumption.
Qed.

(** No sentence left out of a summary outranks a sentence in it: with the
    positions of the summary's sentences, a sentence at another position
    that has a token does not score higher than any of those. *)
Theorem summary_keeps_the_best
        (section : PaperSection) (idf : dict F) (max_sentences : Z) :
  exists (summary : list str) (positions : list nat),
    summarize_section section idf max_sentences = Ok summary
    /\ Forall2 (fun i s => nth_error (sentences section) i = Some s)
               positions summary
    /\ forall i j si sj,
         In i positions -> ~ In j positions ->
         nth_error (sentences section) i = Some si ->
         nth_error (sentences section) j = Some sj ->
         has_tokens sj = true ->
         fltb (sentence_score idf si) (sentence_score idf sj) = false.
Proof.
  unfold summarize_section.
  destruct (sentences section) as [|s0 ss] eqn:Hsent.
  - exists [], []. split; [reflexivity|]. split; [constructor|].
    intros i j si sj [].
  - rewrite <- Hsent.
    destruct (ranking_facts idf (sentences section))
      as (scored & Hok & Hs & Hsc & Hnd & Hin & Hall).
    rewrite Hok. cbn [bind].
    set (top := slice_to scored max_sentences).
    set (L := sort_by Nat.ltb (fun x : scored_sentence => snd (fst x)) top).
    exists (map snd L), (map index_of L).
    assert (HL : Permutation L top) by apply sort_by_perm.
    destruct (slice_to_prefix scored max_sentences) as [n Hn]. fold top in Hn.
    split; [reflexivity|]. split.
    + assert (Hall' : Forall (fun x => nth_error (sentences section) (index_of x)
                                       = Some (snd x)) L).
      { apply Forall_forall. intros x Hx. apply Hin.
        apply (Permutation_in _ HL) in Hx. rewrite Hn in Hx.
        apply In_firstn in Hx. assumption. }
      clear - Hall'. induction Hall'; simpl; constructor; assumption.
    + intros i j si sj Hi Hj Hsi Hsj Htok.
      apply in_map_iff in Hi as (x & Hxi & Hx).
      apply (Permutation_in _ HL) in Hx. rewrite Hn in Hx.
      assert (Hx' : In x scored) by (apply In_firstn in Hx; assumption).
      destruct (Hin x Hx') as [Hnx _]. rewrite Hxi, Hsi in Hnx.
      injection Hnx as Hsx.
      pose proof (Hall j sj Hsj Htok) as Hjin.
      apply in_map_iff in Hjin as (y & Hyj & Hy).
      destruct (Hin y Hy) as [Hny _]. rewrite Hyj, Hsj in Hny.
      injection Hny as Hsy.
      rewrite Forall_forall in Hsc.
      rewrite Hsx, Hsy, <- (Hsc x Hx'), <- (Hsc y Hy).
      rewrite <- (firstn_skipn n scored) in Hy, Hs.
      apply in_app_or in Hy as [Hy|Hy].
      * exfalso. apply Hj. rewrite <- Hyj. apply in_map.
        apply (Permutation_in _ (Permutation_sym HL)). rewrite Hn. assumption.
      * destruct (StronglySorted_app_inv _ _ _ Hs x y Hx Hy) as [H1 _].
        cbn beta in H1. rewrite fneg_order in H1. assumption.
Qed.
End Ranking.

(** ** The size and content of a summary *)

Lemma slice_to_all {A : Type} (l : list A) (k : Z) :
  (Z.of_nat (length l) <= k)%Z -> slice_to l k = l.
Proof.
  intros H. unfold slice_to.
  destruct (k <? 0)%Z eqn:E; [apply Z.ltb_lt in E; lia|].
  apply firstn_all2. lia.
Qed.

Lemma slice_to_exact_length {A : Type} (l : list A) (k : Z) :
  length (slice_to l k)
  = if (k <? 0)%Z then length l - Z.to_nat (- k)
    else Nat.min (Z.to_nat k) (length l).
Proof.
  unfold slice_to. destruct (k <? 0)%Z; rewrite length_firstn; lia.
Qed.

Lemma enumerate_filter_snd (f : list ascii -> bool) (ss : list str) :
  forall i,
    map snd (filter (fun p => f (snd p)) (combine (seq i (length ss)) ss))
    = filter f ss.
Proof.
  induction ss as [|s ss IH]; intros i; simpl; [reflexivity|].
  destruct (f s); simpl; rewrite IH; reflexivity.
Qed.

Section SummaryContent.
Context {ops : FloatOps}.

(** What a summary is made of, whatever the order on floats. *)
Lemma summarize_section_content
      (section : PaperSection) (idf : dict F) (max_sentences : Z) :
  exists summary,
    summarize_section section idf max_sentences = Ok summary
    /\ (forall s, In s summary ->
                  In s (sentences section) /\ has_tokens s = true)
    /\ length summary
       = (if (max_sentences <? 0)%Z
          then length (filter has_tokens (sentences section))
               - Z.to_nat (- max_sentences)
          else Nat.min (Z.to_nat max_sentences)
                       (length (filter has_tokens (sentences section))))
    /\ ((Z.of_nat (length (filter has_tokens (sentences section)))
         <= max_sentences)%Z ->
        summary = filter has_tokens (sentences section)).
Proof.
  unfold summarize_section.
  destruct (sentences section) as [|s0 ss] eqn:Hsent.
  - exists []. split; [reflexivity|]. split; [intros s []|].
    cbn [filter length]. split; [|reflexivity].
    destruct (max_sentences <? 0)%Z; [reflexivity|]. rewrite Nat.min_0_r.
    reflexivity.
  - rewrite <- Hsent.
    destruct (score_loop_ok idf (sentences section) 0)
      as (scored0 & Hloop & Hmap).
    unfold _score_sentences. rewrite Hloop. cbn [bind].
    set (scored := sort_by fltb (fun x : scored_sentence => fneg (fst (fst x)))
                           scored0).
    set (top := slice_to scored max_sentences).
    set (L := sort_by Nat.ltb (fun x : scored_sentence => snd (fst x)) top).
    assert (Hperm : Permutation scored scored0) by apply sort_by_perm.
    assert (HL : Permutation L top) by apply sort_by_perm.
    assert (Hsnd : map snd scored0 = filter has_tokens (sentences section)).
    { rewrite <- (enumerate_filter_snd has_tokens (sentences section) 0).
      rewrite <- Hmap, map_map. reflexivity. }
    assert (Hcount : length scored
                     = length (filter has_tokens (sentences section))).
    { rewrite (Permutation_length Hperm), <- Hsnd, length_map. reflexivity. }
    exists (map snd L). split; [reflexivity|]. split; [|split].
    + intros s Hs. apply in_map_iff in Hs as (x & <- & Hx).
      apply (Permutation_in _ HL) in Hx.
      destruct (slice_to_prefix scored max_sentences) as [n Hn].
      unfold top in Hx. rewrite Hn in Hx. apply In_firstn in Hx.
      apply (Permutation_in _ Hperm) in Hx.
      apply (in_map snd) in Hx. rewrite Hsnd in Hx.
      apply filter_In in Hx. assumption.
    + rewrite length_map.
      etransitivity; [apply (Permutation_length HL)|]. unfold top.
      rewrite slice_to_exact_length, Hcount. reflexivity.
    + intros Hk. rewrite <- Hsnd. f_equal.
      apply (sorted_perm_unique index_of).
      * unfold L, top. rewrite slice_to_all by (rewrite Hcount; assumption).
        rewrite sort_by_perm. assumption.
      * apply (StronglySorted_map index_of Nat.lt).
        apply sorted_NoDup_strict; [apply sort_by_sorted|].
        apply (Permutation_NoDup (Permutation_map index_of (Permutation_sym HL))).
        unfold top. rewrite slice_to_all by (rewrite Hcount; assumption).
        apply (Permutation_NoDup (Permutation_map index_of (Permutation_sym Hperm))).
        replace (map index_of scored0)
          with (map fst (map (fun x => (index_of x, snd x)) scored0))
          by (rewrite map_map; reflexivity).
        rewrite Hmap. apply enumerate_filter_NoDup.
      * apply (StronglySorted_map index_of Nat.lt).
        replace (map index_of scored0)
          with (map fst (map (fun x => (index_of x, snd x)) scored0))
          by (rewrite map_map; reflexivity).
        rewrite Hmap. apply enumerate_filter_sorted.
Qed.

(** A summary holds only sentences of its section that have a token; for
    [max_sentences] not negative it holds as many as asked for, or all of
    them when there are fewer, and then they are the section's token-bearing
    sentences in their order; a negative [max_sentences] drops that many
    sentences from the low end of the ranking instead of raising. *)
Theorem summary_size_and_content
        (section : PaperSection) (idf : dict F) (max_sentences : Z) :
  exists summary,
    summarize_section section idf max_sentences = Ok summary
    /\ incl summary (filter has_tokens (sentences section))
    /\ length summary
       = (if (max_sentences <? 0)%Z
          then length (filter has_tokens (sentences section))
               - Z.to_nat (- max_sentences)
          else Nat.min (Z.to_nat max_sentences)
                       (length (filter has_tokens (sentences section))))
    /\ ((Z.of_nat (length (filter has_tokens (sentences section)))
         <= max_sentences)%Z ->
        summary = filter has_tokens (sentences section)).
Proof.
  destruct (summarize_section_content section idf max_sentences)
    as (summary & Hok & Hin & Hlen & Hall).
  exists summary. split; [assumption|]. split; [|split; assumption].
  intros s Hs. apply filter_In. apply Hin. assumption.
Qed.
End SummaryContent.

(** ** The keywords *)

Lemma first_index_head (w : str) (ws : list str) : first_index w (w :: ws) = 0.
Proof. simpl. rewrite str_eqb_refl. reflexivity. Qed.

Lemma first_index_tail (w x : str) (ws : list str) :
  str_eqb w x = false -> first_index x (w :: ws) = S (first_index x ws).
Proof. intros H. simpl. rewrite H. reflexivity. Qed.

Lemma set_of_first_index_sorted (ws : list str) :
  StronglySorted (fun a b => first_index a ws < first_index b ws) (set_of ws).
Proof.
  induction ws as [|w ws IH]; [constructor|].
  cbn [set_of]. constructor.
  - apply StronglySorted_impl_In
      with (R := fun a b => first_index a ws < first_index b ws);
      [|apply StronglySorted_filter; assumption].
    intros x y Hx Hy Hlt.
    apply filter_In in Hx as [_ Hx]. apply filter_In in Hy as [_ Hy].
    apply negb_true_iff in Hx, Hy.
    rewrite !first_index_tail by assumption. lia.
  - apply Forall_forall. intros y Hy. apply filter_In in Hy as [_ Hy].
    apply negb_true_iff in Hy.
    rewrite first_index_head, first_index_tail by assumption. lia.
Qed.

Lemma dict_get_NoDup {V : Type} (d : dict V) (k : str) (v : V) :
  NoDup (keys d) -> In (k, v) d -> dict_get d k = Some v.
Proof.
  unfold keys. induction d as [|[k' v'] d IH]; intros Hnd Hin; [contradiction|].
  inversion Hnd as [|? ? Hk Hd]; subst. simpl.
  destruct Hin as [[= -> ->]|Hin]; [rewrite str_eqb_refl; reflexivity|].
  destruct (str_eqb k' k) eqn:E; [|apply IH; assumption].
  apply str_eqb_eq in E. subst k'. exfalso. apply Hk.
  apply (in_map fst) in Hin. assumption.
Qed.

Section Keywords.
Context {ops : FloatOps}.

Hypothesis int_div_positive :
  forall a b : nat, 0 < a -> 0 < b -> fltb fzero (int_div a b) = true.

(** [extract_keywords] sorts and cuts the score table. *)
Lemma extract_keywords_scores (raw : str) (top_n : Z) :
  exists scores,
    tfidf_scores raw = Ok scores
    /\ keys scores = set_of (_tokenize raw)
    /\ extract_keywords raw top_n
       = Ok (map fst (slice_to (sort_by fltb (fun x : list ascii * F => fneg (snd x))
                                        scores) top_n)).
Proof.
  unfold tfidf_scores, extract_keywords.
  rewrite (compute_idf_ok int_div_positive). cbn [bind].
  rewrite compute_tf_ok. cbn [bind].
  eexists. split; [reflexivity|]. split; [|reflexivity].
  unfold keys. rewrite !map_map. cbn [fst]. apply Counter_keys.
Qed.

(** Every keyword is a token of the text; for [top_n] not negative there
    are as many keywords as asked for, or one per distinct token when there
    are fewer, and then every distinct token is a keyword; a negative
    [top_n] drops that many terms from the low end instead of raising. *)
Theorem keywords_are_tokens (raw : str) (top_n : Z) :
  exists kws,
    extract_keywords raw top_n = Ok kws
    /\ incl kws (_tokenize raw)
    /\ length kws
       = (if (top_n <? 0)%Z
          then length (set_of (_tokenize raw)) - Z.to_nat (- top_n)
          else Nat.min (Z.to_nat top_n) (length (set_of (_tokenize raw))))
    /\ ((Z.of_nat (length (set_of (_tokenize raw))) <= top_n)%Z ->
        Permutation kws (set_of (_tokenize raw))).
Proof.
  destruct (extract_keywords_scores raw top_n) as (scores & _ & Hkeys & Hok).
  eexists. split; [exact Hok|].
  set (sorted := sort_by fltb (fun x : list ascii * F => fneg (snd x)) scores).
  assert (Hperm : Permutation (map fst sorted) (set_of (_tokenize raw))).
  { rewrite <- Hkeys. unfold keys. apply Permutation_map. apply sort_by_perm. }
  assert (Hlen : length sorted = length (set_of (_tokenize raw))).
  { rewrite <- (length_map fst sorted). apply (Permutation_length Hperm). }
  split; [|split].
  - intros w Hw. destruct (slice_to_prefix sorted top_n) as [n Hn].
    rewrite Hn, <- firstn_map in Hw. apply In_firstn in Hw.
    apply (Permutation_in _ Hperm) in Hw.
    apply (proj1 (set_of_In _ _) Hw).
  - rewrite length_map, slice_to_exact_length, Hlen. reflexivity.
  - intros Hk. rewrite slice_to_all by (rewrite Hlen; assumption). assumption.
Qed.

Hypothesis fltb_asym : forall a b : F, fltb a b = true -> fltb b a = false.
Hypothesis fltb_le_trans :
  forall a b c : F, fltb b a = false -> fltb c b = false -> fltb c a = false.
Hypothesis fneg_order : forall a b : F, fltb (fneg a) (fneg b) = fltb b a.

(** The keywords stand in descending order of their TF-IDF score, terms of
    equal score in the order of their first occurrence in the text, and no
    token left out scores higher than a keyword. *)
Theorem keywords_are_ranked_by_score (raw : str) (top_n : Z) :
  exists scores kws,
    tfidf_scores raw = Ok scores
    /\ extract_keywords raw top_n = Ok kws
    /\ StronglySorted
         (fun w1 w2 =>
            fltb (get_or scores w1 fzero) (get_or scores w2 fzero) = false
            /\ (fltb (get_or scores w2 fzero) (get_or scores w1 fzero) = false ->
                first_index w1 (_tokenize raw) < first_index w2 (_tokenize raw)))
         kws
    /\ forall w w',
         In w kws -> In w' (_tokenize raw) -> ~ In w' kws ->
         fltb (get_or scores w fzero) (get_or scores w' fzero) = false.
Proof.
  destruct (extract_keywords_scores raw top_n) as (scores & Hsc & Hkeys & Hok).
  exists scores. eexists. split; [assumption|]. split; [exact Hok|].
  set (key := fun x : list ascii * F => fneg (snd x)).
  set (before := fun x y : list ascii * F =>
                   first_index (fst x) (_tokenize raw)
                   < first_index (fst y) (_tokenize raw)).
  set (sorted := sort_by fltb key scores).
  assert (Hnd : NoDup (keys scores)) by (rewrite Hkeys; apply set_of_NoDup).
  assert (Hperm : Permutation sorted scores) by apply sort_by_perm.
  assert (Hval : forall x, In x sorted -> get_or scores (fst x) fzero = snd x).
  { intros [w v] Hx. apply (Permutation_in _ Hperm) in Hx.
    unfold get_or. cbn [fst snd].
    rewrite (dict_get_NoDup scores w v Hnd Hx). reflexivity. }
  assert (Hs : StronglySorted (ranked fltb key before) sorted).
  { apply sort_by_ranked; [assumption | assumption|].
    apply (StronglySorted_map fst
             (fun a b => first_index a (_tokenize raw)
                         < first_index b (_tokenize raw))).
    fold (keys scores). rewrite Hkeys. apply set_of_first_index_sorted. }
  destruct (slice_to_prefix sorted top_n) as [n Hn]. rewrite Hn.
  split.
  - apply StronglySorted_map.
    rewrite <- (firstn_skipn n sorted) in Hs.
    assert (Hfirst : StronglySorted (ranked fltb key before) (firstn n sorted)).
    { clear - Hs. induction (firstn n sorted) as [|a l IH]; [constructor|].
      inversion Hs as [|? ? Hs' Ha]; subst. constructor; [apply IH; assumption|].
      apply Forall_app in Ha. apply Ha. }
    apply StronglySorted_impl_In with (2 := Hfirst).
    intros x y Hx Hy [H1 H2]. unfold key in H1, H2.
    rewrite fneg_order in H1, H2.
    rewrite !Hval by (apply (In_firstn _ n); assumption).
    split; assumption.
  - intros w w' Hw Hw' Hout.
    apply in_map_iff in Hw as (x & <- & Hx).
    assert (Hy : In w' (map fst sorted)).
    { apply (Permutation_in _ (Permutation_sym (Permutation_map fst Hperm))).
      fold (keys scores). rewrite Hkeys. apply set_of_In. assumption. }
    apply in_map_iff in Hy as (y & <- & Hy).
    rewrite !Hval by (try assumption; apply (In_firstn _ n); assumption).
    rewrite <- (firstn_skipn n sorted) in Hy, Hs.
    apply in_app_or in Hy as [Hy|Hy].
    + exfalso. apply Hout. apply in_map. assumption.
    + destruct (StronglySorted_app_inv _ _ _ Hs x y Hx Hy) as [H1 _].
      unfold key in H1. rewrite fneg_order in H1. assumption.
Qed.
End Keywords.

(** ** The whole analysis *)

Section Analysis.
Context {ops : FloatOps}.

Hypothesis int_div_positive :
  forall a b : nat, 0 < a -> 0 < b -> fltb fzero (int_div a b) = true.

Variable extract_text_from_pdf : str -> result (str * nat).

(** An analysis raises exactly when the PDF reader does, and then the same
    exception.  Otherwise it returns the path, the estimated title, the page
    count and the text as read, the keywords of the whole text, and the
    detected sections with name, text and sentences unchanged, each with a
    summary drawn from the token-bearing sentences of that same section, of
    at most [sentences_per_section] sentences when that is not negative. *)
Theorem analysis_result
        (pdf_path : str) (sentences_per_section num_keywords : Z) :
  match extract_text_from_pdf pdf_path with
  | Raise e =>
      analyze_paper extract_text_from_pdf pdf_path
                    sentences_per_section num_keywords = Raise e
  | Ok (raw, pages) =>
      exists secs kws,
        analyze_paper extract_text_from_pdf pdf_path
                      sentences_per_section num_keywords
        = Ok (mkPaperInfo pdf_path (_estimate_title raw) pages raw secs kws)
        /\ extract_keywords raw num_keywords = Ok kws
        /\ Forall2
             (fun sec sec' =>
                name sec' = name sec /\ text sec' = text sec
                /\ sentences sec' = sentences sec
                /\ incl (summary_sentences sec')
                        (filter has_tokens (sentences sec))
                /\ ((0 <= sentences_per_section)%Z ->
                    length (summary_sentences sec')
                    <= Z.to_nat sentences_per_section))
             (_detect_sections raw) secs
  end.
Proof.
  unfold analyze_paper.
  destruct (extract_text_from_pdf pdf_path) as [[raw pages]|e];
    [|reflexivity].
  cbn [bind fst snd]. rewrite (compute_idf_ok int_div_positive). cbn [bind].
  set (idf := map _ (count_documents _)).
  pose proof (detect_sections_unsummarized raw) as Hempty.
  rewrite Forall_forall in Hempty.
  destruct (for_each_Forall2
              (fun sec sec' =>
                 name sec' = name sec /\ text sec' = text sec
                 /\ sentences sec' = sentences sec
                 /\ incl (summary_sentences sec')
                         (filter has_tokens (sentences sec))
                 /\ ((0 <= sentences_per_section)%Z ->
                     length (summary_sentences sec')
                     <= Z.to_nat sentences_per_section))
              (summarize_if_wanted idf sentences_per_section)
              (_detect_sections raw)) as (secs' & Hsecs & Hrel).
  { intros sec Hsec. unfold summarize_if_wanted.
    destruct (mem_str (name sec) SKIP_SECTIONS); cbn [negb].
    - exists sec. rewrite (Hempty sec Hsec).
      repeat split; try reflexivity; [intros s [] | intros _; simpl; lia].
    - destruct (summarize_section_content sec idf sentences_per_section)
        as (summary & -> & Hin & Hlen & _).
      cbn [bind]. eexists. split; [reflexivity|]. cbn [name text sentences
                                                       summary_sentences].
      repeat split; try reflexivity.
      + intros s Hs. apply filter_In. apply Hin. assumption.
      + intros Hk. rewrite Hlen.
        destruct (sentences_per_section <? 0)%Z eqn:E;
          [apply Z.ltb_lt in E; lia | apply Nat.le_min_l]. }
  rewrite Hsecs. cbn [bind].
  destruct (extract_keywords_ok int_div_positive raw num_keywords)
    as (sw & Hkw & _).
  rewrite Hkw. cbn [bind]. exists secs'. eexists.
  split; [reflexivity|]. split; [reflexivity | assumption].
Qed.
End Analysis.

(** ** The order hypotheses on rational numbers, and worked instances *)

Lemma Qltb_lt (x y : Q) : Qltb x y = true <-> (x < y)%Q.
Proof. unfold Qltb, Qlt. apply Z.ltb_lt. Qed.

Lemma Qltb_ge (x y : Q) : Qltb x y = false <-> (y <= x)%Q.
Proof. unfold Qltb, Qle. apply Z.ltb_ge. Qed.

Lemma rational_ltb_asym (a b : Q) : Qltb a b = true -> Qltb b a = false.
Proof.
  rewrite Qltb_lt, Qltb_ge. apply Qlt_le_weak.
Qed.

Lemma rational_le_trans (a b c : Q) :
  Qltb b a = false -> Qltb c b = false -> Qltb c a = false.
Proof.
  rewrite !Qltb_ge. intros H1 H2. apply (Qle_trans _ _ _ H1 H2).
Qed.

Lemma rational_neg_order (a b : Q) : Qltb (Qopp a) (Qopp b) = Qltb b a.
Proof.
  destruct (Qltb b a) eqn:E.
  - apply Qltb_lt in E. apply Qltb_lt. apply Qopp_lt_compat. assumption.
  - apply Qltb_ge in E. apply Qltb_ge. apply Qopp_le_compat. assumption.
Qed.

(** The sentence theorem at the second sentence of a two-sentence text. *)
Lemma sentences_are_trimmed_witness :
  10 < length !"Second one here."
  /\ strip !"Second one here." = !"Second one here."
  /\ Forall (fun c => is_space c = true -> c = SP) !"Second one here."
  /\ ~ In NL !"Second one here."
  /\ length !"Second one here."
     <= length !"First sentence here.
 Second one here.".
Proof.
  apply (sentences_are_trimmed !"First sentence here.
 Second one here." !"Second one here.").
  vm_compute. right. left. reflexivity.
Defined.

(** The ranking of the sentences of the sample paper's first section. *)
Lemma ranking_is_by_score_then_position_witness :
  exists scored,
    @_score_sentences rational_ops
       [ !"Peptide masses are computed from residues.";
         !"The residues carry known masses." ] []
    = Ok scored
    /\ StronglySorted
         (fun x y =>
            Qltb (fst (fst x)) (fst (fst y)) = false
            /\ (Qltb (fst (fst y)) (fst (fst x)) = false ->
                @index_of rational_ops x < @index_of rational_ops y))
         scored
    /\ Forall (fun x => fst (fst x) = @sentence_score rational_ops [] (snd x))
              scored.
Proof.
  apply (@ranking_is_by_score_then_position rational_ops
           rational_ltb_asym rational_le_trans rational_neg_order).
Defined.

(** The best-sentences theorem at one section of the sample paper. *)
Lemma summary_keeps_the_best_witness :
  exists (summary : list str) (positions : list nat),
    @summarize_section rational_ops
       (mkSection !"Methods" !"text"
                  [ !"We sum the residue masses of each peptide.";
                    !"Water is added once per chain." ] [])
       [( !"water", (1 # 2)%Q)] 1
    = Ok summary
    /\ Forall2 (fun i s =>
                  nth_error [ !"We sum the residue masses of each peptide.";
                              !"Water is added once per chain." ] i = Some s)
               positions summary
    /\ forall i j si sj,
         In i positions -> ~ In j positions ->
         nth_error [ !"We sum the residue masses of each peptide.";
                     !"Water is added once per chain." ] i = Some si ->
         nth_error [ !"We sum the residue masses of each peptide.";
                     !"Water is added once per chain." ] j = Some sj ->
         has_tokens sj = true ->
         Qltb (@sentence_score rational_ops [( !"water", (1 # 2)%Q)] si)
              (@sentence_score rational_ops [( !"water", (1 # 2)%Q)] sj)
         = false.
Proof.
  apply (@summary_keeps_the_best rational_ops
           rational_ltb_asym rational_le_trans rational_neg_order
           (mkSection !"Methods" !"text"
                      [ !"We sum the residue masses of each peptide.";
                        !"Water is added once per chain." ] [])).
Defined.

(** The keyword theorems on the sample paper. *)
Lemma keywords_are_tokens_witness :
  exists kws,
    @extract_keywords rational_ops sample_paper (-2) = Ok kws
    /\ incl kws (_tokenize sample_paper)
    /\ length kws
       = (if (-2 <? 0)%Z
          then length (set_of (_tokenize sample_paper)) - Z.to_nat (- -2)
          else Nat.min (Z.to_nat (-2)) (length (set_of (_tokenize sample_paper))))
    /\ ((Z.of_nat (length (set_of (_tokenize sample_paper))) <= -2)%Z ->
        Permutation kws (set_of (_tokenize sample_paper))).
Proof.
  apply (@keywords_are_tokens rational_ops rational_int_div_positive
                              sample_paper (-2)).
Defined.

Lemma keywords_are_ranked_by_score_witness :
  exists scores kws,
    @tfidf_scores rational_ops sample_paper = Ok scores
    /\ @extract_keywords rational_ops sample_paper 3 = Ok kws
    /\ StronglySorted
         (fun w1 w2 =>
            Qltb (get_or scores w1 0%Q) (get_or scores w2 0%Q) = false
            /\ (Qltb (get_or scores w2 0%Q) (get_or scores w1 0%Q) = false ->
                first_index w1 (_tokenize sample_paper)
                < first_index w2 (_tokenize sample_paper)))
         kws
    /\ forall w w',
         In w kws -> In w' (_tokenize sample_paper) -> ~ In w' kws ->
         Qltb (get_or scores w 0%Q) (get_or scores w' 0%Q) = false.
Proof.
  apply (@keywords_are_ranked_by_score rational_ops rational_int_div_positive
           rational_ltb_asym rational_le_trans rational_neg_order
           sample_paper 3).
Defined.

(** The analysis theorem with the reader of the sample paper. *)
Lemma analysis_result_witness :
  exists secs kws,
    @analyze_paper rational_ops sample_reader !"paper.pdf" 1 3
    = Ok (mkPaperInfo !"paper.pdf" (_estimate_title sample_paper) 1
                      sample_paper secs kws)
    /\ @extract_keywords rational_ops sample_paper 3 = Ok kws
    /\ Forall2
         (fun sec sec' =>
            name sec' = name sec /\ text sec' = text sec
            /\ sentences sec' = sentences sec
            /\ incl (summary_sentences sec')
                    (filter has_tokens (sentences sec))
            /\ ((0 <= 1)%Z ->
                length (summary_sentences sec') <= Z.to_nat 1))
         (_detect_sections sample_paper) secs.
Proof.
  exact (@analysis_result rational_ops rational_int_div_positive
           sample_reader !"paper.pdf" 1 3).
Defined.

(** ** Tokenizing a text in parts *)






(** ** Texts without sentence terminators *)

Lemma re_sub_In (r : regex) (y c : ascii) (s : str) :
  In c (re_sub r [y] s) -> c = y \/ In c s.
Proof.
  unfold re_sub. intros H. apply in_flat_map in H as (pc & Hpc & Hc).
  destruct pc as [g|m].
  - right. apply (pieces_gap_In r s g c Hpc Hc).
  - destruct Hc as [<-|[]]. left; reflexivity.
Qed.

Lemma scan_without_terminators (fuel : nat) :
  forall acc prev s,
    opt_is is_terminator prev = false ->
    Forall (fun c => is_terminator c = false) s ->
    length s < fuel ->
    scan sentence_boundary fuel acc (prev, s) = [Gap (rev acc ++ s)].
Proof.
  induction fuel as [|fuel IH]; intros acc prev s Hprev Hs Hlen; [lia|].
  cbn [scan].
  assert (Hnone : match_here sentence_boundary (prev, s) = None).
  { unfold match_here, sentence_boundary. cbn [seqs].
    change (run (Seq (behind is_terminator)
                     (Seq (Plus (Chr is_space)) (ahead is_upper))) (prev, s))
      with (flat_map (run (Seq (Plus (Chr is_space)) (ahead is_upper)))
                     (if opt_is is_terminator prev then [(prev, s)] else [])).
    rewrite Hprev. reflexivity. }
  rewrite Hnone. cbn [snd]. destruct s as [|x rest].
  - rewrite app_nil_r. reflexivity.
  - inversion Hs as [|? ? Hx Hrest]; subst.
    rewrite IH by (try assumption; simpl in *; lia).
    simpl. rewrite <- app_assoc. reflexivity.
Qed.

(** A text without ".", "!" or "?" is not split: it gives one sentence, its
    normalised form, or none when that has 10 characters or fewer. *)
Theorem text_without_terminator_is_one_sentence (text : str) :
  Forall (fun c => is_terminator c = false) text ->
  _split_sentences text
  = let normalised :=
      strip (re_sub (Plus (Chr is_space)) [SP]
                    (re_sub (Plus (chr NL)) [SP] text)) in
    if 10 <? length normalised then [normalised] else [].
Proof.
  intros Hall. unfold _split_sentences.
  set (t1 := re_sub (Plus (chr NL)) [SP] text).
  set (t2 := re_sub (Plus (Chr is_space)) [SP] t1).
  assert (Ht : Forall (fun c => is_terminator c = false) (strip t2)).
  { rewrite Forall_forall in Hall. apply Forall_forall. intros c Hc.
    apply strip_In in Hc. apply re_sub_In in Hc as [->|Hc]; [reflexivity|].
    apply re_sub_In in Hc as [->|Hc]; [reflexivity|]. apply Hall. assumption. }
  unfold re_split, pieces.
  rewrite scan_without_terminators by (try assumption; try reflexivity; lia).
  cbn [flat_map app rev filter]. cbv zeta. rewrite strip_idem.
  destruct (10 <? length (strip t2)); cbn [map]; [rewrite strip_idem|];
    reflexivity.
Qed.

(** The theorem at a heading-like line. *)
Lemma text_without_terminator_is_one_sentence_witness :
  _split_sentences !"Materials   and
 Methods"
  = [ !"Materials and Methods" ].
Proof.
  apply (text_without_terminator_is_one_sentence !"Materials   and
 Methods").
  repeat constructor.
Defined.

(** ** Numbered headings *)

Lemma section_patterns_frame :
  SECTION_PATTERNS = map (fun bn => (heading (fst bn), snd bn)) SECTION_BODIES.
Proof. reflexivity. Qed.

Lemma section_bodies_wordy :
  forallb (fun bn => wordy (fst bn)) SECTION_BODIES = true.
Proof. vm_compute. reflexivity. Qed.

Lemma numbering_reads_numbering_chars :
  reads_within is_numbering_char numbering = true.
Proof. vm_compute. reflexivity. Qed.

Lemma numbering_begins_with_digit : first_within is_digit numbering = true.
Proof. vm_compute. reflexivity. Qed.

Lemma In_all_ascii (c : ascii) : In c all_ascii.
Proof.
  unfold all_ascii. apply in_map_iff. exists (nat_of_ascii c).
  split; [apply ascii_nat_embedding|].
  apply in_seq. pose proof (nat_ascii_bounded c). lia.
Qed.

Lemma class_within_spec (p P : ascii -> bool) (c : ascii) :
  class_within p P = true -> p c = true -> P c = true.
Proof.
  unfold class_within. rewrite forallb_forall. intros H Hp.
  specialize (H c (In_all_ascii c)). rewrite Hp in H. exact H.
Qed.

Lemma star_run_self (step : cursor -> list cursor) (fuel : nat) (c : cursor) :
  In c (star_run step fuel c).
Proof.
  destruct fuel; cbn [star_run]; [left; reflexivity|].
  apply in_or_app. right. left. reflexivity.
Qed.

Lemma run_length (r : regex) (c c' : cursor) :
  In c' (run r c) -> length (snd c') <= length (snd c).
Proof.
  intros H. destruct (run_suffix r c c' H) as [m ->].
  rewrite length_app. lia.
Qed.

Lemma first_within_spec (P : ascii -> bool) (r : regex) :
  first_within P r = true ->
  forall c c',
    opt_is P (peek (snd c)) = false ->
    In c' (run r c) -> c' = c /\ nullable r = true.
Proof.
  induction r as [|p|a|r1 IH1 r2 IH2|r1 IH1|r1 IH1]; intros Hr c c' Hc H;
    cbn [first_within nullable] in *.
  - destruct H as [<-|[]]. auto.
  - apply run_Chr_In in H as (x & rest & E & Hp & _).
    rewrite E in Hc. cbn [peek opt_is] in Hc.
    rewrite (class_within_spec p P x Hr Hp) in Hc. discriminate.
  - apply run_Look_In in H as [-> _]. auto.
  - apply andb_true_iff in Hr as [H1 H2].
    apply run_Seq_In in H as (d & Hd & H).
    destruct (IH1 H1 c d Hc Hd) as [-> Hn1]. rewrite Hn1 in *.
    cbn [negb orb andb] in *. apply (IH2 H2 c c' Hc H).
  - apply run_Opt_In in H as [H| ->]; [|auto].
    destruct (IH1 Hr c c' Hc H) as [-> _]. auto.
  - split; [|reflexivity]. cbn [run] in H.
    destruct (length (snd c)) as [|fuel]; cbn [star_run] in H.
    + destruct H as [<-|[]]. reflexivity.
    + apply in_app_or in H as [H|[<-|[]]]; [|reflexivity].
      apply in_flat_map in H as (d & Hd & H).
      destruct (IH1 Hr c d Hc Hd) as [-> _].
      rewrite Nat.ltb_irrefl in H. contradiction.
Qed.

Lemma star_run_reads (P : ascii -> bool) (step : cursor -> list cursor) :
  (forall c c', In c' (step c) ->
                exists m, snd c = m ++ snd c' /\ Forall (fun y => P y = true) m) ->
  forall fuel c c',
    In c' (star_run step fuel c) ->
    exists m, snd c = m ++ snd c' /\ Forall (fun y => P y = true) m.
Proof.
  intros Hstep. induction fuel as [|fuel IH]; intros c c' H.
  - destruct H as [<-|[]]. exists []. split; [reflexivity | constructor].
  - cbn [star_run] in H. apply in_app_or in H as [H|[<-|[]]];
      [|exists []; split; [reflexivity | constructor]].
    apply in_flat_map in H as (d & Hd & H).
    destruct (length (snd d) <? length (snd c)); [|contradiction].
    destruct (Hstep c d Hd) as (m1 & E1 & F1).
    destruct (IH d c' H) as (m2 & E2 & F2).
    exists (m1 ++ m2). rewrite E1, E2, app_assoc.
    split; [reflexivity | apply Forall_app; auto].
Qed.

Lemma reads_within_spec (P : ascii -> bool) (r : regex) :
  reads_within P r = true ->
  forall c c',
    In c' (run r c) ->
    exists m, snd c = m ++ snd c' /\ Forall (fun y => P y = true) m.
Proof.
  induction r as [|p|a|r1 IH1 r2 IH2|r1 IH1|r1 IH1]; intros Hr c c' H;
    cbn [reads_within] in Hr.
  - destruct H as [<-|[]]. exists []. split; [reflexivity | constructor].
  - apply run_Chr_In in H as (x & rest & E & Hp & ->). exists [x].
    rewrite E. split; [reflexivity|]. constructor; [|constructor].
    apply (class_within_spec p P x Hr Hp).
  - apply run_Look_In in H as [-> _]. exists [].
    split; [reflexivity | constructor].
  - apply andb_true_iff in Hr as [H1 H2].
    apply run_Seq_In in H as (d & Hd & H).
    destruct (IH1 H1 c d Hd) as (m1 & E1 & F1).
    destruct (IH2 H2 d c' H) as (m2 & E2 & F2).
    exists (m1 ++ m2). rewrite E1, E2, app_assoc.
    split; [reflexivity | apply Forall_app; auto].
  - apply run_Opt_In in H as [H| ->]; [apply (IH1 Hr c c' H)|].
    exists []. split; [reflexivity | constructor].
  - cbn [run] in H. apply (star_run_reads P (run r1) (IH1 Hr) _ c c' H).
Qed.

(** What a pattern without assertions finds does not depend on the
    character before the cursor, but for the cursor itself when nothing is
    read. *)
Lemma prev_irrelevant (r : regex) :
  no_look r = true ->
  forall p1 p2 s c',
    In c' (run r (p1, s)) ->
    (length (snd c') < length s /\ In c' (run r (p2, s)))
    \/ (c' = (p1, s) /\ nullable r = true /\ In (p2, s) (run r (p2, s))).
Proof.
  induction r as [|p|a|r1 IH1 r2 IH2|r1 IH1|r1 IH1]; intros Hr p1 p2 s c' H;
    cbn [no_look nullable] in *.
  - destruct H as [<-|[]]. right. split; [reflexivity|].
    split; [reflexivity | left; reflexivity].
  - left. apply run_Chr_In in H as (x & rest & E & Hp & ->).
    cbn [snd] in *. subst s. split; [simpl; lia|].
    apply run_Chr_In. exists x, rest. auto.
  - discriminate.
  - apply andb_true_iff in Hr as [H1 H2].
    apply run_Seq_In in H as (d & Hd & H).
    destruct (IH1 H1 p1 p2 s d Hd) as [[Hlen Hd2]|(-> & Hn1 & Hself1)].
    + left. split.
      * pose proof (run_length r2 d c' H). lia.
      * apply run_Seq_In. exists d. auto.
    + destruct (IH2 H2 p1 p2 s c' H) as [[Hlen Hc2]|(-> & Hn2 & Hself2)].
      * left. split; [assumption|]. apply run_Seq_In. exists (p2, s). auto.
      * right. split; [reflexivity|]. rewrite Hn1, Hn2.
        split; [reflexivity|]. apply run_Seq_In. exists (p2, s). auto.
  - apply run_Opt_In in H as [H| ->].
    + destruct (IH1 Hr p1 p2 s c' H) as [[Hlen Hc2]|(-> & _ & _)].
      * left. split; [assumption|]. apply run_Opt_In. left; assumption.
      * right. split; [reflexivity|]. split; [reflexivity|].
        apply run_Opt_In. right; reflexivity.
    + right. split; [reflexivity|]. split; [reflexivity|].
      apply run_Opt_In. right; reflexivity.
  - cbn [run snd] in *.
    destruct (length s) as [|fuel] eqn:El; cbn [star_run] in *.
    + destruct H as [<-|[]]. right. split; [reflexivity|].
      split; [reflexivity | left; reflexivity].
    + apply in_app_or in H as [H|[<-|[]]].
      * apply in_flat_map in H as (d & Hd & H). cbn [snd] in H.
        destruct (length (snd d) <? length s) eqn:Ed; [|contradiction].
        apply Nat.ltb_lt in Ed.
        destruct (IH1 Hr p1 p2 s d Hd) as [[_ Hd2]|(-> & _ & _)];
          [|simpl in Ed; lia].
        left. split.
        -- destruct (star_run_suffix (run r1) (run_suffix r1) fuel d c' H)
             as [m Em].
           rewrite Em, length_app in Ed. lia.
        -- apply in_or_app. left. apply in_flat_map. exists d.
           split; [assumption|]. cbn [snd].
           apply Nat.ltb_lt in Ed. rewrite Ed. assumption.
      * right. split; [reflexivity|]. split; [reflexivity|].
        apply in_or_app. right. left. reflexivity.
Qed.

Lemma last_read_cons (prev : option ascii) (y : ascii) (pre : str) :
  last_read prev (y :: pre) = last_read (Some y) pre.
Proof.
  unfold last_read. simpl. destruct (rev pre); reflexivity.
Qed.

Lemma star_class_In (p : ascii -> bool) (pre : str) :
  Forall (fun y => p y = true) pre ->
  forall fuel prev s2,
    length (pre ++ s2) <= fuel ->
    In (last_read prev pre, s2) (star_run (run (Chr p)) fuel (prev, pre ++ s2)).
Proof.
  induction pre as [|y pre IH]; intros Hall fuel prev s2 Hlen.
  - apply star_run_self.
  - inversion Hall as [|? ? Hy Hpre]; subst.
    destruct fuel as [|fuel]; [simpl in Hlen; lia|].
    cbn [star_run]. apply in_or_app. left. apply in_flat_map.
    exists (Some y, pre ++ s2). split.
    + apply run_Chr_In. exists y, (pre ++ s2). auto.
    + cbn [snd app length].
      assert (Hlt : (length (pre ++ s2) <? S (length (pre ++ s2))) = true)
        by (apply Nat.ltb_lt; lia).
      rewrite Hlt, last_read_cons. apply IH; [assumption|].
      simpl in Hlen. lia.
Qed.

Lemma split_at_first_letter (l1 l2 r1 r2 : str) (x y : ascii) :
  Forall (fun c => is_letter c = false) l1 ->
  Forall (fun c => is_letter c = false) l2 ->
  is_letter x = true -> is_letter y = true ->
  l1 ++ x :: r1 = l2 ++ y :: r2 -> l1 = l2 /\ x = y /\ r1 = r2.
Proof.
  revert l2; induction l1 as [|a l1 IH]; intros l2 H1 H2 Hx Hy E.
  - destruct l2 as [|b l2]; [injection E as -> ->; auto|].
    injection E as -> _. inversion H2; subst. congruence.
  - inversion H1 as [|? ? Ha H1']; subst.
    destruct l2 as [|b l2].
    + injection E as -> _. congruence.
    + injection E as -> E. inversion H2 as [|? ? _ H2']; subst.
      destruct (IH l2 H1' H2' Hx Hy E) as (-> & -> & ->). auto.
Qed.

Lemma numbering_char_not_letter (c : ascii) :
  is_numbering_char c = true -> is_letter c = false.
Proof. destruct c as [[] [] [] [] [] [] [] []]; vm_compute; congruence. Qed.

Lemma letter_not_digit (c : ascii) : is_letter c = true -> is_digit c = false.
Proof. destruct c as [[] [] [] [] [] [] [] []]; vm_compute; congruence. Qed.

Lemma numbering_text_not_letters (digits : str) (dot : bool) (spaces : str) :
  Forall (fun c => is_digit c = true) digits ->
  Forall (fun c => is_space c = true) spaces ->
  Forall (fun c => is_letter c = false) (numbering_text digits dot spaces).
Proof.
  intros Hd Hs. unfold numbering_text. apply Forall_app. split; [|apply Forall_app; split].
  - apply Forall_impl with (2 := Hd). intros c Hc.
    apply numbering_char_not_letter. unfold is_numbering_char. rewrite Hc.
    reflexivity.
  - destruct dot; repeat constructor.
  - apply Forall_impl with (2 := Hs). intros c Hc.
    apply numbering_char_not_letter. unfold is_numbering_char. rewrite Hc.
    apply orb_true_r.
Qed.

Lemma numbering_reads_numbering_text
      (digits : str) (dot : bool) (spaces line : str) :
  digits <> [] ->
  Forall (fun c => is_digit c = true) digits ->
  Forall (fun c => is_space c = true) spaces ->
  exists p,
    In (p, line)
       (run numbering (None, numbering_text digits dot spaces ++ line)).
Proof.
  intros Hne Hd Hs. destruct digits as [|d ds]; [contradiction|].
  inversion Hd as [|? ? Hd0 Hds]; subst.
  set (dotl := if dot then ["."%char] else []).
  set (p3 := if dot then Some "."%char else last_read (Some d) ds).
  exists (last_read p3 spaces).
  unfold numbering, numbering_text. cbn [seqs]. fold dotl.
  replace (((d :: ds) ++ dotl ++ spaces) ++ line)
    with (d :: ds ++ dotl ++ spaces ++ line)
    by (cbn [app]; rewrite <- !app_assoc; reflexivity).
  apply run_Opt_In. left.
  apply run_Seq_In. exists (last_read (Some d) ds, dotl ++ spaces ++ line). split.
  - unfold Plus. apply run_Seq_In. exists (Some d, ds ++ dotl ++ spaces ++ line).
    split; [apply run_Chr_In; eexists; eexists; split; [reflexivity|]; auto|].
    cbn [run snd]. apply star_class_In; [assumption | lia].
  - apply run_Seq_In. exists (p3, spaces ++ line). split.
    + apply run_Opt_In. unfold p3, dotl. destruct dot.
      * left. unfold chr. apply run_Chr_In. eexists; eexists.
        split; [reflexivity|]. split; reflexivity.
      * right. reflexivity.
    + cbn [run snd]. apply star_class_In; [assumption | lia].
Qed.

Lemma numbered_heading_match
      (body : regex) (digits : str) (dot : bool) (spaces : str)
      (x : ascii) (rest : str) :
  wordy body = true ->
  digits <> [] ->
  Forall (fun c => is_digit c = true) digits ->
  Forall (fun c => is_space c = true) spaces ->
  is_letter x = true ->
  re_match (heading body) (numbering_text digits dot spaces ++ x :: rest)
  = re_match (heading body) (x :: rest).
Proof.
  intros Hw Hne Hd Hs Hx. unfold wordy in Hw.
  apply andb_true_iff in Hw as [Hw Hfirst].
  apply andb_true_iff in Hw as [Hlook Hnull]. apply negb_true_iff in Hnull.
  set (num := numbering_text digits dot spaces).
  assert (Hframe : heading body
                   = Seq bol (Seq numbering (Seq body word_boundary)))
    by reflexivity.
  assert (Hiff : re_match (heading body) (num ++ x :: rest) = true
                 <-> re_match (heading body) (x :: rest) = true).
  { rewrite !re_match_true, Hframe. split; intros [c' H].
    - apply run_Seq_In in H as (c1 & H1 & H).
      apply run_Look_In in H1 as [-> _].
      apply run_Seq_In in H as (c2 & H2 & H).
      apply run_Seq_In in H as (c3 & H3 & H4).
      destruct (reads_within_spec _ _ numbering_reads_numbering_chars _ _ H2)
        as (m & Em & Fm). cbn [snd] in Em.
      destruct (opt_is is_letter (peek (snd c2))) eqn:Ep.
      + destruct c2 as [p [|y r2]]; [discriminate|]. cbn [snd peek opt_is] in *.
        destruct (split_at_first_letter num m rest r2 x y) as (_ & <- & <-);
          try assumption.
        * apply numbering_text_not_letters; assumption.
        * apply Forall_impl with (2 := Fm). apply numbering_char_not_letter.
        * destruct (prev_irrelevant body Hlook p None (x :: rest) c3 H3)
            as [[_ H3']|(_ & Hn & _)]; [|congruence].
          exists c'. apply run_Seq_In. exists (None, x :: rest).
          split; [apply run_Look_In; auto|].
          apply run_Seq_In. exists (None, x :: rest).
          split; [unfold numbering; apply run_Opt_In; right; reflexivity|].
          apply run_Seq_In. exists c3. auto.
      + destruct (first_within_spec is_letter body Hfirst c2 c3 Ep H3)
          as [_ Hn]. congruence.
    - apply run_Seq_In in H as (c1 & H1 & H).
      apply run_Look_In in H1 as [-> _].
      apply run_Seq_In in H as (c2 & H2 & H).
      apply run_Seq_In in H as (c3 & H3 & H4).
      destruct (first_within_spec is_digit numbering
                  numbering_begins_with_digit (None, x :: rest) c2) as [-> _];
        [cbn [snd peek opt_is]; apply letter_not_digit; assumption
        | assumption |].
      destruct (numbering_reads_numbering_text digits dot spaces (x :: rest)
                  Hne Hd Hs) as [p Hp].
      destruct (prev_irrelevant body Hlook None p (x :: rest) c3 H3)
        as [[_ H3']|(_ & Hn & _)]; [|congruence].
      exists c'. apply run_Seq_In. exists (None, num ++ x :: rest).
      split; [apply run_Look_In; auto|].
      apply run_Seq_In. exists (p, x :: rest). split; [assumption|].
      apply run_Seq_In. exists c3. auto. }
  destruct (re_match (heading body) (num ++ x :: rest));
    destruct (re_match (heading body) (x :: rest)); try reflexivity.
  - symmetry. apply Hiff. reflexivity.
  - apply Hiff. reflexivity.
Qed.

Lemma lstrip_app_keep (u v : str) :
  lstrip u <> [] -> lstrip (u ++ v) = lstrip u ++ v.
Proof.
  induction u as [|c u IH]; intros H; [contradiction|].
  simpl in *. destruct (is_space c); [apply IH; assumption | reflexivity].
Qed.

Lemma rstrip_app_keep (a b : str) :
  rstrip b <> [] -> rstrip (a ++ b) = a ++ rstrip b.
Proof.
  unfold rstrip. intros H. rewrite rev_app_distr, lstrip_app_keep.
  - rewrite rev_app_distr, rev_involutive. reflexivity.
  - intros E. apply H. rewrite E. reflexivity.
Qed.

(** A heading is found under any numbering: digits, a full stop or none,
    white space or none, in front of a line that begins with a letter, leave
    the line the heading name it has without them. *)
Theorem numbered_heading_is_detected
        (digits : str) (dot : bool) (spaces : str) (x : ascii) (rest : str) :
  digits <> [] ->
  Forall (fun c => is_digit c = true) digits ->
  Forall (fun c => is_space c = true) spaces ->
  is_letter x = true ->
  line_heading (numbering_text digits dot spaces ++ x :: rest)
  = line_heading (x :: rest).
Proof.
  intros Hne Hd Hs Hx.
  assert (Hxs : is_space x = false).
  { destruct (is_space x) eqn:E; [|reflexivity].
    apply space_not_word in E. unfold is_word in E. rewrite Hx in E.
    discriminate. }
  assert (Hstrip : strip (x :: rest) = x :: rstrip rest).
  { unfold strip. cbn [lstrip]. rewrite Hxs.
    apply rstrip_cons_nonspace. assumption. }
  assert (Hnum : strip (numbering_text digits dot spaces ++ x :: rest)
                 = numbering_text digits dot spaces ++ x :: rstrip rest).
  { unfold strip. destruct digits as [|d ds]; [contradiction|].
    inversion Hd as [|? ? Hd0 _]; subst.
    assert (Hds : is_space d = false).
    { destruct (is_space d) eqn:E; [|reflexivity].
      apply space_not_word in E. unfold is_word in E. rewrite Hd0 in E.
      rewrite orb_true_r in E. discriminate. }
    unfold numbering_text. cbn [app lstrip]. rewrite Hds.
    change (d :: (ds ++ (if dot then ["."%char] else []) ++ spaces) ++ x :: rest)
      with ((d :: ds ++ (if dot then ["."%char] else []) ++ spaces)
            ++ x :: rest).
    rewrite rstrip_app_keep;
      rewrite rstrip_cons_nonspace by assumption; [reflexivity | discriminate]. }
  unfold line_heading. rewrite Hstrip, Hnum.
  destruct digits as [|d ds]; [contradiction|].
  change (numbering_text (d :: ds) dot spaces ++ x :: rstrip rest)
    with (d :: (ds ++ (if dot then ["."%char] else []) ++ spaces)
               ++ x :: rstrip rest).
  cbv iota.
  change (d :: (ds ++ (if dot then ["."%char] else []) ++ spaces)
            ++ x :: rstrip rest)
    with (numbering_text (d :: ds) dot spaces ++ x :: rstrip rest).
  rewrite section_patterns_frame.
  pose proof section_bodies_wordy as Hall. rewrite forallb_forall in Hall.
  induction SECTION_BODIES as [|[body nm] bodies IH]; [reflexivity|].
  cbn [map first_match fst snd].
  rewrite (numbered_heading_match body (d :: ds) dot spaces x (rstrip rest))
    by (try assumption; apply (Hall (body, nm)); left; reflexivity).
  rewrite IH by (intros bn Hbn; apply Hall; right; assumption).
  reflexivity.
Qed.

(** The theorem at "2. Methods". *)
Lemma numbered_heading_is_detected_witness :
  line_heading (numbering_text !"2" true !" " ++ "M"%char :: !"ethods")
  = line_heading ("M"%char :: !"ethods").
Proof.
  apply (numbered_heading_is_detected !"2" true !" " "M"%char !"ethods").
  - discriminate.
  - repeat constructor.
  - repeat constructor.
  - reflexivity.
Defined.
